(** * quantileSeq: the order-statistic engine of src/function/statistics/quantileSeq.js

    A shallow embedding of the factory [createQuantileSeq] and of its two
    functions [quantileSeq] (the dispatcher) and [_quantileSeq] (the scalar
    calculator), followed by the properties of the specification.

    Conventions of the embedding.
    - A JavaScript [number] is an exact rational ([Q]): rounding, [NaN] and the
      infinities of IEEE doubles are not represented.  A [BigNumber] is an exact
      rational tagged with the constructor that made it.
    - JavaScript arrays that are passed around by reference live in a store
      ([gmap nat value]); a function that throws leaves the store as it was
      when the exception was raised.
    - The factory dependencies [add], [multiply], [compare], [isInteger] and
      [partitionSelect] are the variables of [Section QuantileSeq], exactly as
      they are the parameters of the factory callback.
    - The exported typed function calls [quantileSeq] with three arguments:
      [quantileSeq(data, prob, false)] for the two-argument signature (line
      59), [quantileSeq] itself for the signature with a boolean (line 60).
      The signatures with a dimension (lines 61-62, [_quantileSeqDim]) hand
      the same function to the reducer [apply] and are not embedded. *)

From Stdlib Require Import QArith Qround ZArith Lia Lqa String.
From stdpp Require Import gmap list sorting.

Local Open Scope string_scope.
Local Open Scope list_scope.
Local Open Scope Q_scope.
Set Warnings "-register-all".

(** ** Values *)

(** [probOrN.constructor]: the class of a BigNumber, kept so that
    [new BigNumber(x)] makes a value of the caller's kind. *)
Record bignumber := mkBig { big_ctor : nat; big_val : Q }.

Inductive value :=
| VNumber (x : Q)
| VBigNumber (b : bignumber)
| VUnit (magnitude : Q) (unit_name : string)
| VBoolean (b : bool)
| VString (s : string)
| VUndefined
| VArray (elems : list value)
| VMatrix (data : list value).

Definition isNumber (v : value) : bool :=
  match v with VNumber _ => true | _ => false end.

(** utils/is.js: [Array.isArray(x) || isMatrix(x)]. *)
Definition isCollection (v : value) : bool :=
  match v with VArray _ | VMatrix _ => true | _ => false end.

(** The elements reached by [x.valueOf()] on an Array (itself) or on a Matrix
    (its storage array). *)
Definition array_elems (v : value) : list value :=
  match v with VArray l | VMatrix l => l | _ => [] end.

(** JavaScript truthiness, for [sorted || false]. *)
Definition truthy (v : value) : bool :=
  match v with
  | VBoolean b => b
  | VNumber x => negb (Qeq_bool x 0)
  | VString s => negb (String.eqb s "")
  | VUndefined => false
  | _ => true
  end.

Definition js_or (a b : value) : value := if truthy a then a else b.

(** ** Exceptions and the store *)

Inductive exn :=
| SyntaxError (msg : string)
| TypeError (msg : string)
| RangeError (msg : string)
| Error (msg : string).

Inductive result (A : Type) :=
| Ok (a : A)
| Throw (e : exn).
Arguments Ok {A} a.
Arguments Throw {A} e.

Definition rbind {A B} (r : result A) (k : A -> result B) : result B :=
  match r with Ok a => k a | Throw e => Throw e end.

Definition is_Ok {A} (r : result A) : Prop := exists a, r = Ok a.

(** A computation reads and writes the store and either returns or throws. *)
Definition M (A : Type) : Type := gmap nat value -> gmap nat value * result A.

Definition ret {A} (a : A) : M A := fun h => (h, Ok a).

Definition throw {A} (e : exn) : M A := fun h => (h, Throw e).

Definition bind {A B} (m : M A) (k : A -> M B) : M B :=
  fun h => match m h with
           | (h', Ok a) => k a h'
           | (h', Throw e) => (h', Throw e)
           end.

Definition lift {A} (r : result A) : M A := fun h => (h, r).

Declare Scope js_scope.
Delimit Scope js_scope with js.
Notation "x <- m ;; k" := (bind m (fun x => k))
  (at level 100, m at next level, right associativity) : js_scope.
Notation "m ;;; k" := (bind m (fun _ => k))
  (at level 100, right associativity) : js_scope.
Local Open Scope js_scope.

(** A new array object. *)
Definition alloc (v : value) : M nat :=
  fun h => let l := fresh (dom h) in (<[l := v]> h, Ok l).

Definition read (l : nat) : M value :=
  fun h => (h, Ok (default VUndefined (h !! l))).

Fixpoint mapM {A B} (f : A -> M B) (l : list A) : M (list B) :=
  match l with
  | [] => ret []
  | a :: l' => b <- f a ;; bs <- mapM f l' ;; ret (b :: bs)
  end.

(** ** Native arithmetic *)

Definition Qlt_bool (a b : Q) : bool := negb (Qle_bool b a).

(** Truncation towards zero. *)
Definition Qtrunc (x : Q) : Z := Z.quot (Qnum x) (Zpos (Qden x)).

(** [x % 1]: the remainder has the sign of the dividend. *)
Definition rem1 (x : Q) : Q := x - inject_Z (Qtrunc x).

(** [Math.floor(x)]. *)
Definition Math_floor (x : Q) : Q := inject_Z (Qfloor x).

Definition of_nat (n : nat) : Q := inject_Z (Z.of_nat n).

Definition is_integral (x : Q) : bool := Qeq_bool x (inject_Z (Qfloor x)).

(** The array index a number denotes as a property key, if any. *)
Definition to_index (x : Q) : option nat :=
  if is_integral x && (0 <=? Qfloor x)%Z then Some (Z.to_nat (Qfloor x)) else None.

(** [flat[i]] for a number [i]: [undefined] off the array. *)
Definition array_get (flat : list value) (i : Q) : value :=
  match to_index i with
  | Some n => default VUndefined (flat !! n)
  | None => VUndefined
  end.

(** [new Array(n)]: the length must be an integer in [0, 2^32 - 1]. *)
Definition new_Array (n : Q) : result nat :=
  if Qle_bool n (4294967295 # 1) then
    match to_index n with
    | Some k => Ok k
    | None => Throw (RangeError "Invalid array length")
    end
  else Throw (RangeError "Invalid array length").

(** ** BigNumber methods (decimal.js), on exact rationals *)

Definition big_isNegative (b : bignumber) : bool := Qlt_bool (big_val b) 0.
Definition big_lte (a b : bignumber) : bool := Qle_bool (big_val a) (big_val b).
Definition big_gt (a b : bignumber) : bool := Qlt_bool (big_val b) (big_val a).
Definition big_isInteger (b : bignumber) : bool := is_integral (big_val b).
Definition big_toNumber (b : bignumber) : Q := big_val b.
Definition big_times (b : bignumber) (n : Q) : bignumber := mkBig (big_ctor b) (big_val b * n).
Definition big_floor (b : bignumber) : bignumber := mkBig (big_ctor b) (Math_floor (big_val b)).
Definition big_minus (a b : bignumber) : bignumber := mkBig (big_ctor a) (big_val a - big_val b).
Definition big_div (a b : bignumber) : bignumber := mkBig (big_ctor a) (big_val a / big_val b).

(** [new BigNumber(x)] for the class [ctor]: a number or a BigNumber is
    converted, anything else is refused by the constructor. *)
Definition new_BigNumber (ctor : nat) (x : value) : result value :=
  match x with
  | VNumber q => Ok (VBigNumber (mkBig ctor q))
  | VBigNumber b => Ok (VBigNumber (mkBig ctor (big_val b)))
  | _ => Throw (Error "[DecimalError] Invalid argument")
  end.

(** ** Collaborators *)

(** Modelled from the spec: flatten (utils/array.js is not among the sources),
    a depth-first, left-to-right linearization of nested arrays. *)
Fixpoint flatten_value (v : value) : list value :=
  match v with
  | VArray elems => flat_map flatten_value elems
  | _ => [v]
  end.

(** Modelled from the spec: flatten returns an independent linear copy, a new
    array object; what is not an array is returned as it is. *)
Definition flatten (array : nat) : M nat :=
  v <- read array ;;
  if isCollection v then alloc (VArray (flat_map flatten_value (array_elems v)))
  else ret array.

(** The private [validate] of the factory (lines 46-56), a typed function
    with the single signature [number | BigNumber | Unit]: "check if array
    value types are valid, throw error otherwise".  It is a test of the kind
    of its argument; conversions that the typed dispatcher may hold are not
    represented. *)
Definition supported (x : value) : bool :=
  match x with VNumber _ | VBigNumber _ | VUnit _ _ => true | _ => false end.

Definition validate_error : exn :=
  TypeError "Unexpected type of argument (expected: number or BigNumber or Unit)".

Definition validate (x : value) : result value :=
  if supported x then Ok x else Throw validate_error.

(** ** The factory *)

Section QuantileSeq.

(** The dependencies injected into the factory.  [compare] answers with a
    sign; [partitionSelect] reorders the array it is given (the first
    component is the array afterwards) and returns the selected element; each
    of them may throw. *)
Variable add : value -> value -> result value.
Variable multiply : value -> value -> result value.
Variable partitionSelect : list value -> Q -> list value * result value.
Variable compare : value -> value -> result Z.
Variable isInteger : value -> result bool.

(** [partitionSelect(flat, k)] on the array object [flat]. *)
Definition partitionSelect_at (flat : nat) (k : Q) : M value :=
  fun h =>
    let out := partitionSelect (array_elems (default VUndefined (h !! flat))) k in
    (<[flat := VArray out.1]> h, out.2).

(** [flat[i]] on the array object [flat]. *)
Definition get (flat : nat) (i : Q) : M value :=
  v <- read flat ;; ret (array_get (array_elems v) i).

(** Lines 214-218 (and 253-257):
    [for (let i = 0; i < integerPart; ++i) if (compare(flat[i], left) > 0) left = flat[i]],
    over the positions [idxs] still to visit. *)
Fixpoint scan_max (flat : list value) (idxs : list nat) (left : value) : result value :=
  match idxs with
  | [] => Ok left
  | i :: rest =>
      let x := default VUndefined (flat !! i) in
      rbind (compare x left) (fun c =>
      scan_max flat rest (if (0 <? c)%Z then x else left))
  end.

(** Lines 204-219 (and, with the same text, 243-258): the two interpolation
    endpoints [(left, right)] around [integerPart]. *)
Definition endpoints (flat : nat) (integerPart : Q) (sorted : bool) : M (value * value) :=
  if sorted then
    left <- get flat integerPart ;;
    right <- get flat (integerPart + 1) ;;
    ret (left, right)
  else
    right <- partitionSelect_at flat (integerPart + 1) ;;
    (* max of partition is kth largest *)
    left <- get flat integerPart ;;
    v <- read flat ;;
    left <- lift (scan_max (array_elems v) (seq 0 (Z.to_nat (Qfloor integerPart))) left) ;;
    ret (left, right).

(** Lines 195-199 (and 232-236): the exact-rank result. *)
Definition exact_rank (flat : nat) (index : Q) (sorted : bool) : M value :=
  value <- (if sorted then get flat index else partitionSelect_at flat index) ;;
  lift (validate value) ;;;
  ret value.

(** Lines 184-266.  [flatten] returns an argument that is not an array as
    it is; [quantileSeq] never passes one, and the call is then a type error
    (nothing can be selected from it). *)
Definition _quantileSeq (array : nat) (prob : value) (sorted : bool) : M value :=
  flat <- flatten array ;;
  fv <- read flat ;;
  if negb (isCollection fv) then
    throw (TypeError "Unexpected type of argument in function partitionSelect")
  else
  let len := length (array_elems fv) in
  if (len =? 0)%nat then
    throw (Error "Cannot calculate quantile of an empty sequence")
  else
  match prob with
  | VNumber prob =>
      let index := prob * (of_nat len - 1) in
      let fracPart := rem1 index in
      if Qeq_bool fracPart 0 then exact_rank flat index sorted
      else
        let integerPart := Math_floor index in
        lr <- endpoints flat integerPart sorted ;;
        lift (validate lr.1) ;;;
        lift (validate lr.2) ;;;
        (* Q(prob) = (1-f)*A[floor(index)] + f*A[floor(index)+1] *)
        a <- lift (multiply lr.1 (VNumber (1 - fracPart))) ;;
        b <- lift (multiply lr.2 (VNumber fracPart)) ;;
        lift (add a b)
  | VBigNumber prob =>
      (* If prob is a BigNumber *)
      let index := big_times prob (of_nat len - 1) in
      if big_isInteger index then exact_rank flat (big_toNumber index) sorted
      else
        let integerPart := big_floor index in
        let fracPart := big_minus index integerPart in
        let integerPartNumber := big_toNumber integerPart in
        lr <- endpoints flat integerPartNumber sorted ;;
        lift (validate lr.1) ;;;
        lift (validate lr.2) ;;;
        let one := mkBig (big_ctor fracPart) 1 in
        a <- lift (multiply lr.1 (VBigNumber (big_minus one fracPart))) ;;
        b <- lift (multiply lr.2 (VBigNumber fracPart)) ;;
        lift (add a b)
  | _ => throw (TypeError "prob.times is not a function")
  end.

Definition unexpected_type : exn :=
  TypeError "Unexpected type of argument in function quantileSeq".

Definition out_of_range : exn :=
  Error "Probability must be between 0 and 1, inclusive".

(** Lines 147-159: the check of one element of a probability list. *)
Definition check_prob (currProb : value) : result unit :=
  match currProb with
  | VNumber p =>
      if Qlt_bool p 0 || Qlt_bool 1 p then Throw out_of_range else Ok tt
  | VBigNumber b =>
      let one := mkBig (big_ctor b) 1 in
      if big_isNegative b || big_gt b one then Throw out_of_range else Ok tt
  | _ => Throw unexpected_type
  end.

(** Lines 70-173; [nargs] is [arguments.length]. *)
Definition quantileSeq (nargs : nat) (data : nat) (probOrN sorted : value) : M value :=
  if (nargs <? 2)%nat || (3 <? nargs)%nat then
    throw (SyntaxError "Function quantileSeq requires two or three parameters")
  else
  d <- read data ;;
  if isCollection d then
    match js_or sorted (VBoolean false) with
    | VBoolean sorted =>
        let dataArr := data in
        match probOrN with
        | VNumber p =>
            if Qlt_bool p 0 then throw (Error "N/prob must be non-negative")
            else if Qle_bool p 1 then
              (* quantileSeq([a, b, c, d, ...], prob[,sorted]) *)
              _quantileSeq dataArr probOrN sorted
            else
              (* quantileSeq([a, b, c, d, ...], N[,sorted]) *)
              int <- lift (isInteger probOrN) ;;
              if negb int then throw (Error "N must be a positive integer")
              else
                let nPlusOne := p + 1 in
                n <- lift (new_Array p) ;;
                probArr <- mapM (fun i => _quantileSeq dataArr
                                    (VNumber (of_nat (S i) / nPlusOne)) sorted)
                                (seq 0 n) ;;
                ret (VArray probArr)
        | VBigNumber b =>
            let BigNumber := big_ctor b in
            if big_isNegative b then throw (Error "N/prob must be non-negative")
            else
              let one := mkBig BigNumber 1 in
              if big_lte b one then
                (* quantileSeq([a, b, c, d, ...], prob[,sorted]) *)
                r <- _quantileSeq dataArr probOrN sorted ;;
                lift (new_BigNumber BigNumber r)
              else
                (* quantileSeq([a, b, c, d, ...], N[,sorted]) *)
                if negb (big_isInteger b) then throw (Error "N must be a positive integer")
                else
                  (* largest possible Array length is 2^32-1 *)
                  let intN := big_toNumber b in
                  if Qlt_bool (4294967295 # 1) intN then
                    throw (Error "N must be less than or equal to 2^32-1, as that is the maximum length of an Array")
                  else
                    let nPlusOne := mkBig BigNumber (intN + 1) in
                    n <- lift (new_Array intN) ;;
                    probArr <- mapM (fun i =>
                                       r <- _quantileSeq dataArr
                                              (VBigNumber (big_div (mkBig BigNumber (of_nat (S i))) nPlusOne))
                                              sorted ;;
                                       lift (new_BigNumber BigNumber r))
                                    (seq 0 n) ;;
                    ret (VArray probArr)
        | VArray probOrNArr | VMatrix probOrNArr =>
            (* quantileSeq([a, b, c, d, ...], [prob1, prob2, ...][,sorted]) *)
            probArr <- mapM (fun currProb =>
                               lift (check_prob currProb) ;;;
                               _quantileSeq dataArr currProb sorted)
                            probOrNArr ;;
            ret (VArray probArr)
        | _ => throw unexpected_type
        end
    | _ => throw unexpected_type
    end
  else throw unexpected_type.

End QuantileSeq.

(** A computation frames the store when every object that was there before
    is there, unchanged, afterwards. *)
Definition frames {A} (m : M A) : Prop :=
  forall h : gmap nat value, h ⊆ (m h).1.

(** ** What a call computes, as a function of the flattened contents

    The definitions of this section restate no property: they name, for the
    theorems below, the pieces of [_quantileSeq] and [quantileSeq] once the
    store is taken away ([scalar_run] and [dispatch_run] prove that they are
    what the code computes). *)

Section Results.

Variable add : value -> value -> result value.
Variable multiply : value -> value -> result value.
Variable partitionSelect : list value -> Q -> list value * result value.
Variable compare : value -> value -> result Z.

(** The flattened sequence of a collection. *)
Definition flat_of (collection : value) : list value :=
  flat_map flatten_value (array_elems collection).

(** The element consulted for an exact rank. *)
Definition consulted (flat : list value) (index : Q) (sorted : bool) : result value :=
  if sorted then Ok (array_get flat index) else (partitionSelect flat index).2.

(** The private copy after the selection, if any. *)
Definition reordered (flat : list value) (index : Q) (sorted : bool) : list value :=
  if sorted then flat else (partitionSelect flat index).1.

Definition exact_rank_of (flat : list value) (index : Q) (sorted : bool) : result value :=
  rbind (consulted flat index sorted) (fun value =>
  rbind (validate value) (fun _ => Ok value)).

Definition endpoints_of (flat : list value) (integerPart : Q) (sorted : bool)
  : result (value * value) :=
  if sorted then Ok (array_get flat integerPart, array_get flat (integerPart + 1))
  else
    let out := partitionSelect flat (integerPart + 1) in
    rbind out.2 (fun right =>
    rbind (scan_max compare out.1 (seq 0 (Z.to_nat (Qfloor integerPart)))
             (array_get out.1 integerPart)) (fun left =>
    Ok (left, right))).

(** [add(multiply(left, w1), multiply(right, w2))]. *)
Definition combine (left right w1 w2 : value) : result value :=
  rbind (multiply left w1) (fun a =>
  rbind (multiply right w2) (fun b => add a b)).

Definition interpolate (lr : value * value) (w1 w2 : value) : result value :=
  rbind (validate lr.1) (fun _ =>
  rbind (validate lr.2) (fun _ => combine lr.1 lr.2 w1 w2)).

(** The result of running [f] over a list: the first exception wins. *)
Fixpoint mapR {A B} (f : A -> result B) (l : list A) : result (list B) :=
  match l with
  | [] => Ok []
  | a :: l' => rbind (f a) (fun b => rbind (mapR f l') (fun bs => Ok (b :: bs)))
  end.

(** The rank a probability asks for in a sequence of [len] elements: an exact
    index, or the integer part of a fractional index with the two weights
    [1 - fracPart] and [fracPart] (lines 192-194, 202, 225 for a number; lines
    229-231, 239-241, 264-265 for a BigNumber). *)
Inductive rank :=
| Exact_rank (index : Q)
| Between (integerPart : Q) (w1 w2 : value).

Definition rank_of (len : nat) (prob : value) : option rank :=
  match prob with
  | VNumber prob =>
      let index := prob * (of_nat len - 1) in
      let fracPart := rem1 index in
      Some (if Qeq_bool fracPart 0 then Exact_rank index
            else Between (Math_floor index) (VNumber (1 - fracPart)) (VNumber fracPart))
  | VBigNumber prob =>
      let index := big_times prob (of_nat len - 1) in
      let integerPart := big_floor index in
      let fracPart := big_minus index integerPart in
      let one := mkBig (big_ctor fracPart) 1 in
      Some (if big_isInteger index then Exact_rank (big_toNumber index)
            else Between (big_toNumber integerPart)
                   (VBigNumber (big_minus one fracPart)) (VBigNumber fracPart))
  | _ => None
  end.

Definition quantile_of (flat : list value) (prob : value) (sorted : bool) : result value :=
  if (length flat =? 0)%nat then
    Throw (Error "Cannot calculate quantile of an empty sequence")
  else
  match rank_of (length flat) prob with
  | Some (Exact_rank index) => exact_rank_of flat index sorted
  | Some (Between integerPart w1 w2) =>
      rbind (endpoints_of flat integerPart sorted) (fun lr => interpolate lr w1 w2)
  | None => Throw (TypeError "prob.times is not a function")
  end.

(** The private copy a call of the scalar calculator leaves behind. *)
Definition copy_after (flat : list value) (prob : value) (sorted : bool) : list value :=
  if (length flat =? 0)%nat then flat
  else match rank_of (length flat) prob with
       | Some (Exact_rank index) => reordered flat index sorted
       | Some (Between integerPart _ _) => reordered flat (integerPart + 1) sorted
       | None => flat
       end.

(** One element of a probability list: checked, then computed (lines 147-161). *)
Definition checked_quantile (flat : list value) (sorted : bool) (currProb : value)
  : result value :=
  rbind (check_prob currProb) (fun _ => quantile_of flat currProb sorted).

(** [new BigNumber(_quantileSeq(dataArr, prob, sorted))] (lines 117 and 136). *)
Definition wrapped_quantile (ctor : nat) (flat : list value) (sorted : bool) (prob : value)
  : result value :=
  rbind (quantile_of flat prob sorted) (new_BigNumber ctor).

(** The outcome of [quantileSeq] on a collection with contents [flat], called
    with three arguments, the last a boolean. *)
Definition dispatch_of (isInteger : value -> result bool)
  (flat : list value) (probOrN : value) (sorted : bool) : result value :=
  match probOrN with
  | VNumber p =>
      if Qlt_bool p 0 then Throw (Error "N/prob must be non-negative")
      else if Qle_bool p 1 then quantile_of flat probOrN sorted
      else
        rbind (isInteger probOrN) (fun int =>
        if negb int then Throw (Error "N must be a positive integer")
        else
          rbind (new_Array p) (fun n =>
          rbind (mapR (fun i => quantile_of flat (VNumber (of_nat (S i) / (p + 1))) sorted)
                   (seq 0 n)) (fun probArr =>
          Ok (VArray probArr))))
  | VBigNumber b =>
      if big_isNegative b then Throw (Error "N/prob must be non-negative")
      else if big_lte b (mkBig (big_ctor b) 1) then
        wrapped_quantile (big_ctor b) flat sorted probOrN
      else if negb (big_isInteger b) then Throw (Error "N must be a positive integer")
      else if Qlt_bool (4294967295 # 1) (big_toNumber b) then
        Throw (Error "N must be less than or equal to 2^32-1, as that is the maximum length of an Array")
      else
        rbind (new_Array (big_toNumber b)) (fun n =>
        rbind (mapR (fun i => wrapped_quantile (big_ctor b) flat sorted
                                (VBigNumber (big_div (mkBig (big_ctor b) (of_nat (S i)))
                                               (mkBig (big_ctor b) (big_toNumber b + 1)))))
                 (seq 0 n)) (fun probArr =>
        Ok (VArray probArr)))
  | VArray probOrNArr | VMatrix probOrNArr =>
      rbind (mapR (checked_quantile flat sorted) probOrNArr) (fun probArr =>
      Ok (VArray probArr))
  | _ => Throw unexpected_type
  end.

(** The probability a number or a BigNumber stands for, and a weight of the
    same representation as the probability. *)
Definition probability_of (prob : value) : option Q :=
  match prob with
  | VNumber p => Some p
  | VBigNumber b => Some (big_val b)
  | _ => None
  end.

Definition as_weight (prob : value) (f : Q) : value :=
  match prob with
  | VBigNumber b => VBigNumber (mkBig (big_ctor b) f)
  | _ => VNumber f
  end.


(** ** Contracts of the collaborators (specification, section 6) *)

(** [a] is not above [b]: [compare(a, b)] answers, and not with a positive sign. *)
Definition le (a b : value) : Prop :=
  exists c, compare a b = Ok c /\ (c <= 0)%Z.

(** [compare] is a total preorder on the values [D] of the representation in play. *)
Record total_preorder_on (D : value -> Prop) : Prop := {
  compare_defined : forall a b, D a -> D b -> is_Ok (compare a b);
  le_total : forall a b, D a -> D b -> le a b \/ le b a;
  le_trans : forall a b c, D a -> D b -> D c -> le a b -> le b c -> le a c
}.


(** [x] is above [b]: [compare(x, b) > 0], the test of the scan of line 215. *)
Definition above (x b : value) : bool :=
  match compare x b with Ok c => (0 <? c)%Z | Throw _ => false end.

(** How many elements of [l] are above [b]. *)
Fixpoint count_above (b : value) (l : list value) : nat :=
  match l with
  | [] => 0
  | x :: l' => (if above x b then 1 else 0) + count_above b l'
  end.

(** The postcondition of [select(sequence, rank)]: the array afterwards is a
    rearrangement of the array before, the answer sits at [rank], nothing
    before it is above it and nothing after it is below it. *)
Definition selects (l : list value) (rank : nat) (out : list value * result value) : Prop :=
  exists v, out.2 = Ok v /\ out.1 ≡ₚ l /\ out.1 !! rank = Some v
    /\ Forall (fun x => le x v) (take rank out.1)
    /\ Forall (fun x => le v x) (drop (S rank) out.1).

(** The selection primitive honours its contract on [l], for every rank it is
    defined for ([0 <= rank < length l]). *)
Definition selection_contract (l : list value) : Prop :=
  forall k rank, to_index k = Some rank -> (rank < length l)%nat ->
    selects l rank (partitionSelect l k).

(** [x] is a [k]-th smallest element of [l]: it stands at position [k] of an
    ascending arrangement of [l]. *)
Definition kth_smallest (l : list value) (k : nat) (x : value) : Prop :=
  exists s, s ≡ₚ l /\ StronglySorted le s /\ s !! k = Some x.


End Results.

(** ** A capability set for running the engine

    The dependencies of the factory are functions of the repository whose
    files are not among the sources.  [Exact] gives each of them the behaviour
    that the specification describes (sections 2 and 6), on exact numbers, so
    that the embedding can be run. *)
Module Exact.

(** Modelled from the spec: a generic arithmetic operation over the
    numeric representation in play, number or BigNumber (a number meeting a
    BigNumber is converted to one). *)
Definition lift2 (f : Q -> Q -> Q) (a b : value) : result value :=
  match a, b with
  | VNumber x, VNumber y => Ok (VNumber (Qred (f x y)))
  | VBigNumber x, VBigNumber y => Ok (VBigNumber (mkBig (big_ctor x) (Qred (f (big_val x) (big_val y)))))
  | VBigNumber x, VNumber y => Ok (VBigNumber (mkBig (big_ctor x) (Qred (f (big_val x) y))))
  | VNumber x, VBigNumber y => Ok (VBigNumber (mkBig (big_ctor y) (Qred (f x (big_val y)))))
  | _, _ => Throw (TypeError "Unexpected type of argument")
  end.

(** Modelled from the spec: add (function/arithmetic is not among the
    sources), the sum; quantities sum when their units agree. *)
Definition add (a b : value) : result value :=
  match a, b with
  | VUnit x u, VUnit y w =>
      if String.eqb u w then Ok (VUnit (Qred (x + y)) u) else Throw (Error "Units do not match")
  | _, _ => lift2 Qplus a b
  end.

(** Modelled from the spec: multiply, here the scaling by a dimensionless
    weight. *)
Definition multiply (a b : value) : result value :=
  match a, b with
  | VUnit x u, VNumber y => Ok (VUnit (Qred (x * y)) u)
  | VUnit x u, VBigNumber y => Ok (VUnit (Qred (x * big_val y)) u)
  | _, _ => lift2 Qmult a b
  end.

(** Modelled from the spec: compare answers with -1, 0 or 1. *)
Definition sign (c : comparison) : Z :=
  match c with Lt => (-1)%Z | Eq => 0%Z | Gt => 1%Z end.

(** Modelled from the spec: compare, the order of the numeric
    representation in play; quantities compare within compatible units
    only. *)
Definition compare (a b : value) : result Z :=
  match a, b with
  | VNumber x, VNumber y => Ok (sign (x ?= y))
  | VBigNumber x, VBigNumber y => Ok (sign (big_val x ?= big_val y))
  | VBigNumber x, VNumber y => Ok (sign (big_val x ?= y))
  | VNumber x, VBigNumber y => Ok (sign (x ?= big_val y))
  | VUnit x u, VUnit y w =>
      if String.eqb u w then Ok (sign (x ?= y))
      else Throw (Error "Cannot compare units with different base")
  | _, _ => Throw (TypeError "Unexpected type of argument in function compare")
  end.

(** Modelled from the spec: isInteger, the exactness test on native and
    arbitrary-precision values. *)
Definition isInteger (x : value) : result bool :=
  match x with
  | VNumber q => Ok (is_integral q)
  | VBigNumber b => Ok (big_isInteger b)
  | _ => Throw (TypeError "Unexpected type of argument in function isInteger")
  end.

(** Modelled from the spec: the selection primitive (partitionSelect.js is
    not among the sources) returns the element that would occupy the rank if
    the sequence were sorted ascending, and leaves everything before the rank
    not above it and everything after the rank not below it; it is defined
    only for [0 <= rank < length].  This instance orders the whole array, by
    insertion. *)
Fixpoint insert_by (x : value) (l : list value) : result (list value) :=
  match l with
  | [] => Ok [x]
  | y :: l' =>
      rbind (compare x y) (fun c =>
      if (c <=? 0)%Z then Ok (x :: y :: l')
      else rbind (insert_by x l') (fun r => Ok (y :: r)))
  end.

(** Modelled from the spec: the ascending order of [compare]; an exception
    of [compare] is the exception of the selection. *)
Fixpoint sort_by (l : list value) : result (list value) :=
  match l with
  | [] => Ok []
  | x :: l' => rbind (sort_by l') (insert_by x)
  end.

(** Modelled from the spec: [select(sequence, rank)], the array afterwards
    and the element at the rank. *)
Definition partitionSelect (x : list value) (k : Q) : list value * result value :=
  match to_index k with
  | None => (x, Throw (Error "k must be a non-negative integer"))
  | Some i =>
      if (length x <=? i)%nat then (x, Throw (Error "k out of bounds"))
      else match sort_by x with
           | Ok s => (s, Ok (default VUndefined (s !! i)))
           | Throw e => (x, Throw e)
           end
  end.

(** The factory applied to this capability set. *)
Definition quantileSeq : nat -> nat -> value -> value -> M value :=
  quantileSeq add multiply partitionSelect compare isInteger.

Definition _quantileSeq : nat -> value -> bool -> M value :=
  _quantileSeq add multiply partitionSelect compare.

(** The store in which the caller's collection is the single object [0]. *)
Definition store_of (collection : value) : gmap nat value := {[ 0%nat := collection ]}.

Definition numbers (l : list Q) : value := VArray (map VNumber l).

End Exact.

(** The values on which [Exact] is run below: native numbers, and the array
    [[3, -1, 5, 7]] of the documentation as the object [0] of the store. *)
Definition is_number (v : value) : Prop := exists q, v = VNumber q.

Definition sample : value := Exact.numbers [3; -1; 5; 7].

Definition sample_store : gmap nat value := Exact.store_of sample.

(** The reading of the specification that the code does not follow: a call
    with a probability list that holds an invalid element fails with an error
    of the validation of the list, before any quantile is computed (nothing
    has been flattened or selected: the store is the one the call started
    from). *)
Definition validation_precedes_computation
  (quantileSeq : nat -> nat -> value -> value -> M value) : Prop :=
  forall (h : gmap nat value) data C ps sorted,
    h !! data = Some C -> isCollection C = true ->
    Exists (fun p => check_prob p <> Ok tt) ps ->
    exists e, (e = out_of_range \/ e = unexpected_type)
              /\ quantileSeq 3%nat data (VArray ps) (VBoolean sorted) h = (h, Throw e).

(** Two selection primitives agree on [l] wherever the selection is defined:
    on every rank [0 <= rank < length l]. *)
Definition agree_in_range (select select' : list value -> Q -> list value * result value)
  (l : list value) : Prop :=
  forall k rank, to_index k = Some rank -> (rank < length l)%nat -> select l k = select' l k.

(** A selection that differs from [Exact.partitionSelect] off the array only:
    where that one throws, this one answers [undefined]. *)
Definition lenient_select (x : list value) (k : Q) : list value * result value :=
  match to_index k with
  | Some i => if (length x <=? i)%nat then (x, Ok VUndefined) else Exact.partitionSelect x k
  | None => (x, Ok VUndefined)
  end.

(** The probabilities [1/(N+1), ..., n/(N+1)] of the count form, as a list
    (lines 97-100). *)
Definition steps (N : Q) (n : nat) : list value :=
  map (fun i => VNumber (of_nat (S i) / (N + 1))) (seq 0 n).

(** The error of line 188. *)
Definition empty_sequence : exn :=
  Error "Cannot calculate quantile of an empty sequence".

(** The documented examples of the source (lines 27-30). *)
Example quantileSeq_doc_1 :
  (Exact.quantileSeq 3 0 (VNumber (1 # 2)) (VBoolean false)
     (Exact.store_of (Exact.numbers [3; -1; 5; 7]))).2 = Ok (VNumber 4).
Proof. vm_compute. reflexivity. Qed.

Example quantileSeq_doc_2 :
  (Exact.quantileSeq 3 0 (Exact.numbers [1 # 3; 2 # 3]) (VBoolean false)
     (Exact.store_of (Exact.numbers [3; -1; 5; 7]))).2 = Ok (Exact.numbers [3; 5]).
Proof. vm_compute. reflexivity. Qed.

Example quantileSeq_doc_3 :
  (Exact.quantileSeq 3 0 (VNumber 2) (VBoolean false)
     (Exact.store_of (Exact.numbers [3; -1; 5; 7]))).2 = Ok (Exact.numbers [3; 5]).
Proof. vm_compute. reflexivity. Qed.

Example quantileSeq_doc_4 :
  (Exact.quantileSeq 3 0 (VNumber (1 # 2)) (VBoolean true)
     (Exact.store_of (Exact.numbers [-1; 3; 5; 7]))).2 = Ok (VNumber 4).
Proof. vm_compute. reflexivity. Qed.

(** Nested arrays and matrices are flattened depth first; BigNumber
    probabilities and quantities go through the same code. *)
Example quantileSeq_nested :
  (Exact.quantileSeq 3 0 (VNumber (1 # 2)) (VBoolean false)
     (Exact.store_of (VArray [Exact.numbers [3; -1]; Exact.numbers [5; 7]]))).2
  = Ok (VNumber 4).
Proof. vm_compute. reflexivity. Qed.

Example quantileSeq_matrix :
  (Exact.quantileSeq 3 0 (VNumber (1 # 3)) (VBoolean false)
     (Exact.store_of (VMatrix [Exact.numbers [3; -1]; Exact.numbers [5; 7]]))).2
  = Ok (VNumber 3).
Proof. vm_compute. reflexivity. Qed.

Example quantileSeq_bignumber :
  (Exact.quantileSeq 3 0 (VBigNumber (mkBig 7 (1 # 2))) (VBoolean false) sample_store).2
  = Ok (VBigNumber (mkBig 7 4)).
Proof. vm_compute. reflexivity. Qed.

Example quantileSeq_units :
  (Exact.quantileSeq 3 0 (VNumber (1 # 2)) (VBoolean false)
     (Exact.store_of (VArray [VUnit 3 "cm"; VUnit 1 "cm"]))).2
  = Ok (VUnit 2 "cm").
Proof. vm_compute. reflexivity. Qed.

(** [sorted] may be left out ([undefined || false]); any other value that is
    not a boolean, and a wrong number of arguments, are refused. *)
Example quantileSeq_sorted_undefined :
  (Exact.quantileSeq 2 0 (VNumber (1 # 2)) VUndefined sample_store).2 = Ok (VNumber 4).
Proof. vm_compute. reflexivity. Qed.

Example quantileSeq_sorted_not_boolean :
  Exact.quantileSeq 3 0 (VNumber (1 # 2)) (VString "yes") sample_store
  = (sample_store, Throw unexpected_type).
Proof. vm_compute. reflexivity. Qed.

Example quantileSeq_one_argument :
  Exact.quantileSeq 1 0 VUndefined VUndefined sample_store
  = (sample_store,
     Throw (SyntaxError "Function quantileSeq requires two or three parameters")).
Proof. vm_compute. reflexivity. Qed.

(** * Properties *)

Lemma js_or_boolean (sorted : bool) :
  js_or (VBoolean sorted) (VBoolean false) = VBoolean sorted.
Proof. by destruct sorted. Qed.

(** Tactic: the first steps of the dispatcher on a collection, with three arguments
    and a boolean [sorted]. *)
Ltac enter_dispatch Hv Hc :=
  unfold quantileSeq; cbn [Nat.ltb Nat.leb orb];
  unfold bind at 1, read at 1; rewrite Hv; cbn [default from_option id];
  rewrite Hc, js_or_boolean.

Section Properties.

Variable add : value -> value -> result value.
Variable multiply : value -> value -> result value.
Variable partitionSelect : list value -> Q -> list value * result value.
Variable compare : value -> value -> result Z.
Variable isInteger : value -> result bool.

Local Abbreviation scalar := (_quantileSeq add multiply partitionSelect compare).
Local Abbreviation dispatch := (quantileSeq add multiply partitionSelect compare isInteger).
Local Abbreviation result_of := (quantile_of add multiply partitionSelect compare).
Local Abbreviation outcome_of := (dispatch_of add multiply partitionSelect compare isInteger).

(** ** Native comparisons *)

Lemma Qlt_bool_true a b : Qlt_bool a b = true <-> a < b.
Proof.
  unfold Qlt_bool. rewrite negb_true_iff, <- not_true_iff_false, Qle_bool_iff.
  split; [apply Qnot_le_lt|apply Qlt_not_le].
Qed.

Lemma Qlt_bool_false a b : Qlt_bool a b = false <-> b <= a.
Proof.
  unfold Qlt_bool. by rewrite negb_false_iff, Qle_bool_iff.
Qed.

Lemma Qle_bool_false a b : Qle_bool a b = false <-> b < a.
Proof.
  rewrite <- not_true_iff_false, Qle_bool_iff.
  split; [apply Qnot_le_lt|apply Qlt_not_le].
Qed.

Lemma Qle_bool_true a b : a <= b -> Qle_bool a b = true.
Proof. apply Qle_bool_iff. Qed.

Lemma to_index_Some x n : to_index x = Some n -> x == of_nat n.
Proof.
  unfold to_index, is_integral, of_nat.
  destruct (Qeq_bool _ _) eqn:Hx; [|done]. apply Qeq_bool_iff in Hx.
  destruct (0 <=? Qfloor x)%Z eqn:H0; [|done]. apply Z.leb_le in H0.
  intros [= <-]. by rewrite Z2Nat.id.
Qed.

Lemma to_index_of x n : x == of_nat n -> to_index x = Some n.
Proof.
  intros Hx. unfold to_index, is_integral.
  assert (Qfloor x = Z.of_nat n) as ->
    by (rewrite Hx; apply Qfloor_Z).
  assert (Qeq_bool x (inject_Z (Z.of_nat n)) = true) as ->
    by (by apply Qeq_bool_iff).
  assert ((0 <=? Z.of_nat n)%Z = true) as -> by (apply Z.leb_le; lia).
  by rewrite Nat2Z.id.
Qed.

Lemma of_nat_le (i n : nat) : (i <= n)%nat -> of_nat i <= of_nat n.
Proof. intros Hi. unfold of_nat. rewrite <- Zle_Qle. lia. Qed.

Lemma of_nat_lt (i n : nat) : (i < n)%nat -> of_nat i < of_nat n.
Proof. intros Hi. unfold of_nat. rewrite <- Zlt_Qlt. lia. Qed.

Lemma of_nat_S (n : nat) : of_nat (S n) == of_nat n + 1.
Proof.
  unfold of_nat. rewrite Nat2Z.inj_succ, <- Z.add_1_r, inject_Z_plus. reflexivity.
Qed.

(** The evenly spaced probabilities [i / (N + 1)], [1 <= i <= N], are
    probabilities. *)
Lemma step_is_probability N n i :
  N == of_nat n -> (i < n)%nat ->
  0 <= of_nat (S i) / (N + 1) /\ of_nat (S i) / (N + 1) <= 1.
Proof.
  intros HN Hi.
  assert (0 <= of_nat i) by (apply (of_nat_le 0); lia).
  assert (of_nat (S i) <= of_nat n) by (apply of_nat_le; lia).
  assert (0 < N + 1) by (pose proof (of_nat_S i); lra).
  split.
  - apply Qle_shift_div_l; [done|]. pose proof (of_nat_S i). lra.
  - apply Qle_shift_div_r; [done|]. lra.
Qed.

(** ** The rank of a probability *)

Lemma Qtrunc_nonneg x : 0 <= x -> Qtrunc x = Qfloor x.
Proof.
  intros Hx. unfold Qtrunc. destruct x as [n d]. unfold Qfloor.
  apply Z.quot_div_nonneg; [|done].
  unfold Qle in Hx. simpl in Hx. lia.
Qed.

Lemma Qfloor_nonneg x : 0 <= x -> (0 <= Qfloor x)%Z.
Proof. intros Hx. change 0%Z with (Qfloor 0). by apply Qfloor_resp_le. Qed.

(** On a non-negative number, [x % 1 === 0] tells whether [x] is an integer. *)
Lemma rem1_integral x : 0 <= x -> Qeq_bool (rem1 x) 0 = is_integral x.
Proof.
  intros Hx. unfold rem1, is_integral. rewrite (Qtrunc_nonneg x Hx).
  destruct (Qeq_bool x _) eqn:Hi.
  - apply Qeq_bool_iff in Hi. apply Qeq_bool_iff. lra.
  - apply Qeq_bool_neq in Hi. apply not_true_iff_false.
    intros Hr%Qeq_bool_iff. apply Hi. lra.
Qed.

Lemma rem1_floor x :
  0 <= x -> rem1 x = x - of_nat (Z.to_nat (Qfloor x)).
Proof.
  intros Hx. unfold rem1, of_nat.
  by rewrite (Qtrunc_nonneg x Hx), Z2Nat.id by (by apply Qfloor_nonneg).
Qed.

Lemma Math_floor_of_nat x :
  0 <= x -> Math_floor x = of_nat (Z.to_nat (Qfloor x)).
Proof.
  intros Hx. unfold Math_floor, of_nat.
  by rewrite Z2Nat.id by (by apply Qfloor_nonneg).
Qed.

Lemma index_bounds p (len : nat) :
  0 <= p -> p <= 1 -> (0 < len)%nat ->
  0 <= p * (of_nat len - 1) /\ p * (of_nat len - 1) <= of_nat len - 1.
Proof.
  intros H0 H1 Hlen.
  assert (0 <= of_nat len - 1).
  { pose proof (of_nat_le 1 len Hlen) as H. change (of_nat 1) with 1 in H. lra. }
  split; nra.
Qed.

Lemma of_nat_pred_lt (k len : nat) :
  of_nat k < of_nat len - 1 -> (S k < len)%nat.
Proof.
  intros Hk. pose proof (of_nat_S k) as HS.
  destruct (decide (S k < len)%nat) as [|Hge]; [done|].
  pose proof (of_nat_le len (S k) ltac:(lia)). lra.
Qed.

Lemma of_nat_pred_le (k len : nat) :
  of_nat k <= of_nat len - 1 -> (k < len)%nat.
Proof.
  intros Hk. pose proof (of_nat_S k) as HS.
  destruct (decide (k < len)%nat) as [|Hge]; [done|].
  pose proof (of_nat_le len k ltac:(lia)). lra.
Qed.

(** A probability whose index [p * (len - 1)] is the integer [k] asks for the
    exact rank [k]. *)
Lemma rank_of_exact prob p (len k : nat) :
  probability_of prob = Some p -> 0 <= p -> p <= 1 -> (0 < len)%nat ->
  p * (of_nat len - 1) == of_nat k ->
  rank_of len prob = Some (Exact_rank (p * (of_nat len - 1)))
  /\ to_index (p * (of_nat len - 1)) = Some k /\ (k < len)%nat.
Proof.
  intros Hp H0 H1 Hlen Hk.
  destruct (index_bounds p len H0 H1 Hlen) as [Hi0 Hi1].
  pose proof (to_index_of _ _ Hk) as Hidx.
  assert (Hint : is_integral (p * (of_nat len - 1)) = true).
  { unfold to_index in Hidx. by destruct (is_integral _). }
  split; [|split; [done|apply of_nat_pred_le; lra]].
  destruct prob; try done; injection Hp as <-; cbn [rank_of].
  - by rewrite (rem1_integral _ Hi0), Hint.
  - unfold big_isInteger, big_times, big_toNumber. cbn [big_val]. by rewrite Hint.
Qed.

(** A probability whose index is not an integer asks for the two ranks
    around it, with the weights [1 - f] and [f], [f = idx - floor(idx)]. *)
Lemma rank_of_between prob p (len : nat) :
  probability_of prob = Some p -> 0 <= p -> p <= 1 -> (0 < len)%nat ->
  is_integral (p * (of_nat len - 1)) = false ->
  let idx := p * (of_nat len - 1) in
  let k := Z.to_nat (Qfloor idx) in
  let f := idx - of_nat k in
  rank_of len prob
  = Some (Between (of_nat k) (as_weight prob (1 - f)) (as_weight prob f))
  /\ (S k < len)%nat /\ 0 < f /\ f < 1.
Proof.
  intros Hp H0 H1 Hlen Hint idx k f.
  destruct (index_bounds p len H0 H1 Hlen) as [Hi0 Hi1]. fold idx in Hi0, Hi1, Hint.
  assert (Hfl : of_nat k = inject_Z (Qfloor idx)).
  { unfold k, of_nat. by rewrite Z2Nat.id by (by apply Qfloor_nonneg). }
  assert (Hlt : of_nat k < idx).
  { rewrite Hfl. apply Qle_lteq in Hi0.
    pose proof (Qfloor_le idx) as Hle. apply Qle_lteq in Hle as [Hlt|Heq]; [done|].
    unfold is_integral in Hint. apply Qeq_bool_neq in Hint.
    exfalso. apply Hint. by symmetry. }
  assert (Hup : idx < of_nat k + 1).
  { rewrite Hfl. pose proof (Qlt_floor idx) as Hf.
    rewrite inject_Z_plus in Hf. exact Hf. }
  split; [|split; [apply of_nat_pred_lt; lra|unfold f; split; lra]].
  destruct prob; try done; injection Hp as <-; cbn [rank_of as_weight].
  - fold idx. rewrite (rem1_integral _ Hi0), Hint.
    by rewrite (rem1_floor _ Hi0), (Math_floor_of_nat _ Hi0).
  - unfold big_isInteger, big_times, big_toNumber, big_floor, big_minus.
    cbn [big_val big_ctor]. fold idx. rewrite Hint.
    by rewrite (Math_floor_of_nat _ Hi0).
Qed.

(** ** Running the scalar calculator *)

Lemma get_run (h : gmap nat value) l flat i :
  get l i (<[l := VArray flat]> h) = (<[l := VArray flat]> h, Ok (array_get flat i)).
Proof.
  unfold get, bind, read, ret. by rewrite lookup_insert_eq.
Qed.

Lemma partitionSelect_at_run (h : gmap nat value) l flat k :
  partitionSelect_at partitionSelect l k (<[l := VArray flat]> h)
  = (<[l := VArray (partitionSelect flat k).1]> h, (partitionSelect flat k).2).
Proof.
  unfold partitionSelect_at. rewrite lookup_insert_eq. simpl.
  by rewrite insert_insert_eq.
Qed.

Lemma exact_rank_run (h : gmap nat value) l flat index sorted :
  exact_rank partitionSelect l index sorted (<[l := VArray flat]> h)
  = (<[l := VArray (reordered partitionSelect flat index sorted)]> h,
     exact_rank_of partitionSelect flat index sorted).
Proof.
  unfold exact_rank, exact_rank_of, consulted, reordered, bind.
  destruct sorted.
  - rewrite get_run. simpl. unfold lift, ret.
    by destruct (validate (array_get flat index)).
  - rewrite partitionSelect_at_run.
    destruct (partitionSelect flat index) as [flat' [v|e]]; simpl; [|done].
    unfold lift, ret. by destruct (validate v).
Qed.

Lemma endpoints_run (h : gmap nat value) l flat integerPart sorted :
  endpoints partitionSelect compare l integerPart sorted (<[l := VArray flat]> h)
  = (<[l := VArray (reordered partitionSelect flat (integerPart + 1) sorted)]> h,
     endpoints_of partitionSelect compare flat integerPart sorted).
Proof.
  unfold endpoints, endpoints_of, reordered, bind.
  destruct sorted.
  - by rewrite !get_run.
  - rewrite partitionSelect_at_run.
    destruct (partitionSelect flat (integerPart + 1)) as [flat' [v|e]];
      cbn [fst snd rbind]; [|done].
    rewrite get_run. unfold read, lift, ret. rewrite lookup_insert_eq.
    cbn [default array_elems].
    by destruct (scan_max _ _ _ _).
Qed.

Lemma interpolate_run (h : gmap nat value) lr w1 w2 :
  (lift (validate lr.1) ;;; lift (validate lr.2) ;;;
   a <- lift (multiply lr.1 w1) ;; b <- lift (multiply lr.2 w2) ;; lift (add a b)) h
  = (h, interpolate add multiply lr w1 w2).
Proof.
  unfold interpolate, combine, bind, lift.
  destruct (validate lr.1); simpl; [|done].
  destruct (validate lr.2); simpl; [|done].
  destruct (multiply lr.1 w1); simpl; [|done].
  by destruct (multiply lr.2 w2).
Qed.

Lemma flatten_run (h : gmap nat value) array v :
  h !! array = Some v -> isCollection v = true ->
  flatten array h = (<[fresh (dom h) := VArray (flat_of v)]> h, Ok (fresh (dom h))).
Proof.
  intros Hv Hc. unfold flatten, bind, read, alloc. rewrite Hv. simpl.
  by rewrite Hc.
Qed.

(** On a collection, a call of the scalar calculator allocates the private
    copy, leaves every other object alone, and its outcome is a function of
    the flattened contents. *)
Lemma scalar_run (h : gmap nat value) array v prob sorted :
  h !! array = Some v -> isCollection v = true ->
  scalar array prob sorted h
  = (<[fresh (dom h) := VArray (copy_after partitionSelect (flat_of v) prob sorted)]> h,
     result_of (flat_of v) prob sorted).
Proof.
  intros Hv Hc.
  unfold _quantileSeq, quantile_of, copy_after. unfold bind at 1.
  rewrite (flatten_run h array v Hv Hc).
  unfold bind at 1, read at 1. rewrite lookup_insert_eq.
  cbn [default from_option id isCollection negb array_elems].
  destruct (length (flat_of v) =? 0)%nat; [done|].
  destruct prob; try done; cbn [rank_of].
  - destruct (Qeq_bool _ 0); [apply exact_rank_run|].
    unfold bind at 1. rewrite endpoints_run.
    destruct (endpoints_of _ _ _ _ _) as [lr|e]; simpl; [|done].
    by rewrite interpolate_run.
  - destruct (big_isInteger _); [apply exact_rank_run|].
    unfold bind at 1. rewrite endpoints_run.
    destruct (endpoints_of _ _ _ _ _) as [lr|e]; simpl; [|done].
    by rewrite interpolate_run.
Qed.

Lemma fresh_free (h : gmap nat value) : h !! fresh (dom h) = None.
Proof. apply not_elem_of_dom, is_fresh. Qed.

(** Off a collection the scalar calculator throws before it touches anything. *)
Lemma scalar_not_collection (h : gmap nat value) array prob sorted :
  isCollection (default VUndefined (h !! array)) = false ->
  scalar array prob sorted h
  = (h, Throw (TypeError "Unexpected type of argument in function partitionSelect")).
Proof.
  intros Hc. unfold _quantileSeq, flatten, bind, read. rewrite Hc.
  unfold ret. by rewrite Hc.
Qed.

Lemma scalar_frame (h : gmap nat value) array prob sorted :
  h ⊆ (scalar array prob sorted h).1.
Proof.
  destruct (isCollection (default VUndefined (h !! array))) eqn:Hc.
  - destruct (h !! array) as [v|] eqn:Hv; [|done].
    rewrite (scalar_run h array v prob sorted Hv Hc).
    apply insert_subseteq, fresh_free.
  - by rewrite scalar_not_collection.
Qed.

Lemma scalar_keeps (h : gmap nat value) array prob sorted l v :
  h !! l = Some v -> (scalar array prob sorted h).1 !! l = Some v.
Proof.
  intros Hl. eapply lookup_weaken; [done|]. apply scalar_frame.
Qed.

Lemma mapM_frame {A B} (f : A -> M B) :
  (forall a (h : gmap nat value), h ⊆ (f a h).1) ->
  forall l (h : gmap nat value), h ⊆ (mapM f l h).1.
Proof.
  intros Hf l. induction l as [|a l IH]; intros h; [done|].
  cbn [mapM]. unfold bind at 1.
  pose proof (Hf a h) as Ha. destruct (f a h) as [h1 [b|e]]; [|done].
  unfold bind at 1.
  pose proof (IH h1) as Hl. destruct (mapM f l h1) as [h2 [bs|e]];
    simpl in *; by etrans.
Qed.

(** A loop whose body computes, on every store that satisfies [I], what [g]
    says, computes [mapR g]. *)
Lemma mapM_run {A B} (f : A -> M B) (g : A -> result B) (I : gmap nat value -> Prop) :
  (forall a h, I h -> (f a h).2 = g a /\ I (f a h).1) ->
  forall l h, I h -> (mapM f l h).2 = mapR g l /\ I (mapM f l h).1.
Proof.
  intros Hf l. induction l as [|a l IH]; intros h Hh; [done|].
  cbn [mapM mapR]. unfold bind.
  destruct (Hf a h Hh) as [Ha Ia]. destruct (f a h) as [h1 r]. simpl in Ha, Ia.
  subst r. destruct (g a) as [b|e]; [|done].
  destruct (IH h1 Ia) as [Hl Il].
  destruct (mapM f l h1) as [h2 r]. simpl in Hl, Il. subst r.
  by destruct (mapR g l).
Qed.

Lemma scalar_result (h : gmap nat value) data v prob sorted :
  h !! data = Some v -> isCollection v = true ->
  (scalar data prob sorted h).2 = result_of (flat_of v) prob sorted
  /\ (scalar data prob sorted h).1 !! data = Some v.
Proof.
  intros Hv Hc. split; [|by apply scalar_keeps].
  by rewrite (scalar_run h data v prob sorted Hv Hc).
Qed.

(** The outcome of the dispatcher on a collection is a function of the
    flattened contents. *)
Lemma dispatch_run (h : gmap nat value) data v probOrN sorted :
  h !! data = Some v -> isCollection v = true ->
  (dispatch 3 data probOrN (VBoolean sorted) h).2 = outcome_of (flat_of v) probOrN sorted.
Proof.
  intros Hv Hc. unfold quantileSeq, dispatch_of.
  cbn [Nat.ltb Nat.leb orb]. unfold bind at 1, read at 1. rewrite Hv.
  cbn [default from_option id]. rewrite Hc, js_or_boolean.
  pose proof (fun p => scalar_result h data v p sorted Hv Hc) as Hs.
  destruct probOrN as [p|b| | | | |ps|ps]; try done.
  - destruct (Qlt_bool p 0); [done|]. destruct (Qle_bool p 1); [apply Hs|].
    unfold bind at 1, lift at 1. destruct (isInteger (VNumber p)) as [[]|]; try done.
    cbn [negb rbind]. unfold bind at 1, lift at 1.
    destruct (new_Array p) as [n|]; [|done]. cbn [rbind]. unfold bind at 1.
    destruct (mapM_run
                (fun i => scalar data (VNumber (of_nat (S i) / (p + 1))) sorted)
                (fun i => result_of (flat_of v) (VNumber (of_nat (S i) / (p + 1))) sorted)
                (fun h => h !! data = Some v)
                (fun i h Hh => scalar_result h data v _ sorted Hh Hc)
                (seq 0 n) h Hv) as [Hr _].
    destruct (mapM _ _ _) as [h1 r]. simpl in Hr. subst r.
    by destruct (mapR _ _).
  - destruct (big_isNegative b); [done|]. destruct (big_lte b _).
    { unfold bind at 1, wrapped_quantile. destruct (Hs (VBigNumber b)) as [Hr _].
      destruct (scalar _ _ _ _) as [h1 r]. simpl in Hr. subst r.
      by destruct (result_of _ _ _). }
    destruct (big_isInteger b); [|done]. cbn [negb].
    destruct (Qlt_bool _ _); [done|].
    unfold bind at 1, lift at 1.
    destruct (new_Array _) as [n|]; [|done]. cbn [rbind]. unfold bind at 1.
    destruct (mapM_run
                (fun i => r <- scalar data
                            (VBigNumber (big_div (mkBig (big_ctor b) (of_nat (S i)))
                                           (mkBig (big_ctor b) (big_toNumber b + 1))))
                            sorted ;;
                          lift (new_BigNumber (big_ctor b) r))
                (fun i => wrapped_quantile add multiply partitionSelect compare
                            (big_ctor b) (flat_of v) sorted
                            (VBigNumber (big_div (mkBig (big_ctor b) (of_nat (S i)))
                                           (mkBig (big_ctor b) (big_toNumber b + 1)))))
                (fun h => h !! data = Some v)) with (l := seq 0 n) (h := h) as [Hr _];
      [|done|].
    { intros i h0 Hh. unfold bind, wrapped_quantile.
      destruct (scalar_result h0 data v
                  (VBigNumber (big_div (mkBig (big_ctor b) (of_nat (S i)))
                                 (mkBig (big_ctor b) (big_toNumber b + 1))))
                  sorted Hh Hc) as [Hr Hk].
      destruct (scalar _ _ _ _) as [h1 r]. simpl in Hr, Hk. subst r.
      by destruct (result_of _ _ _). }
    destruct (mapM _ _ _) as [h1 r]. simpl in Hr. subst r.
    by destruct (mapR _ _).
  - unfold bind at 1.
    destruct (mapM_run
                (fun currProb => lift (check_prob currProb) ;;; scalar data currProb sorted)
                (checked_quantile add multiply partitionSelect compare (flat_of v) sorted)
                (fun h => h !! data = Some v)) with (l := ps) (h := h) as [Hr _];
      [|done|].
    { intros c h0 Hh. unfold bind, lift, checked_quantile.
      destruct (check_prob c); [|done]. by apply scalar_result. }
    destruct (mapM _ _ _) as [h1 r]. simpl in Hr. subst r.
    by destruct (mapR _ _).
  - unfold bind at 1.
    destruct (mapM_run
                (fun currProb => lift (check_prob currProb) ;;; scalar data currProb sorted)
                (checked_quantile add multiply partitionSelect compare (flat_of v) sorted)
                (fun h => h !! data = Some v)) with (l := ps) (h := h) as [Hr _];
      [|done|].
    { intros c h0 Hh. unfold bind, lift, checked_quantile.
      destruct (check_prob c); [|done]. by apply scalar_result. }
    destruct (mapM _ _ _) as [h1 r]. simpl in Hr. subst r.
    by destruct (mapR _ _).
Qed.

(** On a probability (a number in [0, 1]) the dispatcher is the scalar
    calculator. *)
Lemma dispatch_probability flat p sorted :
  0 <= p -> p <= 1 ->
  outcome_of flat (VNumber p) sorted = result_of flat (VNumber p) sorted.
Proof.
  intros H0 H1. cbn [dispatch_of].
  assert (Qlt_bool p 0 = false) as -> by (by apply Qlt_bool_false).
  by rewrite Qle_bool_true.
Qed.

(** On a BigNumber probability the dispatcher wraps what the scalar
    calculator returns. *)
Lemma dispatch_big_probability flat b sorted :
  0 <= big_val b -> big_val b <= 1 ->
  outcome_of flat (VBigNumber b) sorted
  = rbind (result_of flat (VBigNumber b) sorted) (new_BigNumber (big_ctor b)).
Proof.
  intros H0 H1. cbn [dispatch_of]. unfold big_isNegative, big_lte. cbn [big_val].
  assert (Qlt_bool (big_val b) 0 = false) as -> by (by apply Qlt_bool_false).
  by rewrite Qle_bool_true.
Qed.

(** ** The caller's objects are never written *)

Lemma frames_ret {A} (a : A) : frames (ret a).
Proof. by intros h. Qed.

Lemma frames_throw {A} (e : exn) : frames (@throw A e).
Proof. by intros h. Qed.

Lemma frames_lift {A} (r : result A) : frames (lift r).
Proof. by intros h. Qed.

Lemma frames_read l : frames (read l).
Proof. by intros h. Qed.

Lemma frames_bind {A B} (m : M A) (k : A -> M B) :
  frames m -> (forall a, frames (k a)) -> frames (bind m k).
Proof.
  intros Hm Hk h. unfold bind. specialize (Hm h).
  destruct (m h) as [h1 [a|e]]; [|done].
  etrans; [exact Hm|apply Hk].
Qed.

Lemma frames_mapM {A B} (f : A -> M B) l :
  (forall a, frames (f a)) -> frames (mapM f l).
Proof. intros Hf h. by apply mapM_frame. Qed.

Lemma frames_scalar array prob sorted : frames (scalar array prob sorted).
Proof. intros h. apply scalar_frame. Qed.

Lemma frames_dispatch nargs data probOrN sorted :
  frames (dispatch nargs data probOrN sorted).
Proof.
  unfold quantileSeq.
  repeat first
    [ apply frames_throw | apply frames_ret | apply frames_lift | apply frames_read
    | apply frames_scalar | apply frames_mapM; intros ?
    | apply frames_bind; [|intros ?]
    | match goal with
      | |- frames (if ?b then _ else _) => destruct b
      | |- frames (match ?v with _ => _ end) => destruct v
      end ].
Qed.

(** C7. No call mutates the caller's collection: whatever the arguments, and
    whether the call returns or throws, every object of the store the call
    started from (the collection [data] among them, nested rows included) is
    unchanged in the store it ends with; and a call of the scalar calculator
    on a collection writes one object only, the new array that [flatten]
    allocated before any selection, which holds the reordered private copy. *)
Theorem caller_collection_never_mutated :
  (forall nargs data probOrN sorted (h : gmap nat value) l x,
      h !! l = Some x ->
      (dispatch nargs data probOrN sorted h).1 !! l = Some x)
  /\ (forall array prob sorted (h : gmap nat value) v,
        h !! array = Some v -> isCollection v = true ->
        h !! fresh (dom h) = None
        /\ (scalar array prob sorted h).1
           = <[fresh (dom h) := VArray (copy_after partitionSelect (flat_of v) prob sorted)]> h).
Proof.
  split.
  - intros nargs data probOrN sorted h l x Hl.
    eapply lookup_weaken; [exact Hl|]. apply frames_dispatch.
  - intros array prob sorted h v Hv Hc. split; [apply fresh_free|].
    by rewrite (scalar_run h array v prob sorted Hv Hc).
Qed.

(** ** Error cases *)


(** C8. On a collection [S]: [quantileSeq(S, 0.5)] fails with the
    empty-input error when [S] flattens to the empty sequence (as [[]] does);
    [quantileSeq(S, -0.1)] and [quantileSeq(S, [1.5])] fail with the two
    domain errors; and [quantileSeq(S, 2.5)] fails with "N must be a positive
    integer" (the integrality test is the injected [isInteger], which answers
    false on 2.5).  Each error is raised where it is detected: the three
    argument errors leave the store as it was (nothing was flattened or
    selected), the empty-input error is raised right after the flattening. *)
Theorem error_cases (h : gmap nat value) data S sorted :
  h !! data = Some S -> isCollection S = true ->
  isInteger (VNumber (5 # 2)) = Ok false ->
  (flat_of S = [] ->
   dispatch 3 data (VNumber (1 # 2)) (VBoolean sorted) h
   = (<[fresh (dom h) := VArray []]> h,
      Throw (Error "Cannot calculate quantile of an empty sequence")))
  /\ dispatch 3 data (VNumber (-1 # 10)) (VBoolean sorted) h
     = (h, Throw (Error "N/prob must be non-negative"))
  /\ dispatch 3 data (VArray [VNumber (3 # 2)]) (VBoolean sorted) h
     = (h, Throw (Error "Probability must be between 0 and 1, inclusive"))
  /\ dispatch 3 data (VNumber (5 # 2)) (VBoolean sorted) h
     = (h, Throw (Error "N must be a positive integer")).
Proof.
  intros Hv Hc Hint.
  repeat split.
  - intros Hflat. enter_dispatch Hv Hc.
    change (Qlt_bool (1 # 2) 0) with false. change (Qle_bool (1 # 2) 1) with true.
    cbv iota. rewrite (scalar_run h data S _ sorted Hv Hc).
    unfold copy_after, quantile_of. by rewrite Hflat.
  - by enter_dispatch Hv Hc.
  - by enter_dispatch Hv Hc.
  - enter_dispatch Hv Hc.
    change (Qlt_bool (5 # 2) 0) with false. change (Qle_bool (5 # 2) 1) with false.
    cbv iota. unfold bind at 1, lift at 1. by rewrite Hint.
Qed.

Lemma length_nonempty {A} (l : list A) : l <> [] -> (length l =? 0)%nat = false.
Proof. destruct l; [done|]. by intros _. Qed.


(** ** The arbitrary-precision branch *)

Lemma rbind_Ok {A B} (r : result A) (k : A -> result B) b :
  rbind r k = Ok b -> exists a, r = Ok a /\ k a = Ok b.
Proof. destruct r as [a|e]; [|done]. intros Hk. by exists a. Qed.

Lemma mapR_Ok {A B} (f : A -> result B) (P : B -> Prop) l bs :
  (forall a b, f a = Ok b -> P b) ->
  mapR f l = Ok bs -> length bs = length l /\ Forall P bs.
Proof.
  intros Hf. revert bs. induction l as [|a l IH]; intros bs.
  - intros [= <-]. by split.
  - cbn [mapR]. intros (b & Hb & Hr)%rbind_Ok.
    apply rbind_Ok in Hr as (bs' & Hbs & [= <-]).
    destruct (IH _ Hbs) as [Hlen Hall]. split; [simpl; by rewrite Hlen|].
    constructor; [by eapply Hf|done].
Qed.

Lemma mapR_lookup {A B} (f : A -> result B) l bs :
  mapR f l = Ok bs ->
  forall i a, l !! i = Some a -> exists b, bs !! i = Some b /\ f a = Ok b.
Proof.
  revert bs. induction l as [|a0 l IH]; intros bs; [done|].
  cbn [mapR]. intros (b & Hb & Hr)%rbind_Ok.
  apply rbind_Ok in Hr as (bs' & Hbs & [= <-]).
  intros [|i] a; [intros [= <-]; by exists b|]. apply (IH _ Hbs).
Qed.



Lemma new_Array_Ok x n : new_Array x = Ok n -> to_index x = Some n.
Proof.
  unfold new_Array. destruct (Qle_bool _ _); [|done].
  destruct (to_index x) as [k|]; [|done]. by intros [= <-].
Qed.


(** ** Probability lists *)

Lemma mapR_ext {A B} (f g : A -> result B) l :
  Forall (fun a => f a = g a) l -> mapR f l = mapR g l.
Proof.
  induction 1 as [|a l Ha _ IH]; [done|]. cbn [mapR]. by rewrite Ha, IH.
Qed.

Lemma mapR_app_throw {A B} (f : A -> result B) pre bad post e :
  f bad = Throw e ->
  mapR f (pre ++ bad :: post) = rbind (mapR f pre) (fun _ => Throw e).
Proof.
  intros Hbad. induction pre as [|a pre IH]; cbn [mapR app].
  - by rewrite Hbad.
  - destruct (f a) as [b|]; [|done]. cbn [rbind]. rewrite IH.
    by destruct (mapR f pre).
Qed.

Lemma Exists_first {A} (P : A -> Prop) (l : list A) :
  (forall a, Decision (P a)) -> Exists P l ->
  exists pre bad post, l = (pre ++ bad :: post)%list /\ Forall (fun a => ~ P a) pre /\ P bad.
Proof.
  intros Hdec. induction 1 as [a l Ha|a l _ IH].
  - by exists [], a, l.
  - destruct (Hdec a) as [Ha|Ha]; [by exists [], a, l|].
    destruct IH as (pre & bad & post & -> & Hpre & Hbad).
    exists (a :: pre), bad, post. repeat split; [|done]. by constructor.
Qed.

Lemma check_prob_dec (p : value) : Decision (check_prob p <> Ok tt).
Proof.
  destruct (check_prob p) as [[]|e]; [right|left]; congruence.
Qed.

(** The list form stores what the scalar calculator returns, as it is. *)
Lemma list_form_unwrapped (h : gmap nat value) data C ps sorted :
  h !! data = Some C -> isCollection C = true ->
  Forall (fun p => check_prob p = Ok tt) ps ->
  (dispatch 3 data (VArray ps) (VBoolean sorted) h).2
  = rbind (mapR (fun p => (scalar data p sorted h).2) ps) (fun rs => Ok (VArray rs)).
Proof.
  intros Hv Hc Hps. rewrite (dispatch_run h data C _ sorted Hv Hc). cbn [dispatch_of].
  f_equal. apply mapR_ext. eapply Forall_impl; [exact Hps|].
  intros p Hp. cbv beta in *. unfold checked_quantile. rewrite Hp. cbn [rbind].
  by rewrite (scalar_run h data C p sorted Hv Hc).
Qed.

(** For native probabilities the elements of the list form are the results
    of the single calls. *)
Lemma list_form_numbers (h : gmap nat value) data C (ps : list Q) sorted :
  h !! data = Some C -> isCollection C = true ->
  Forall (fun p => 0 <= p /\ p <= 1) ps ->
  (dispatch 3 data (VArray (map VNumber ps)) (VBoolean sorted) h).2
  = rbind (mapR (fun p => (dispatch 3 data (VNumber p) (VBoolean sorted) h).2) ps)
      (fun rs => Ok (VArray rs)).
Proof.
  intros Hv Hc Hps. rewrite (dispatch_run h data C _ sorted Hv Hc). cbn [dispatch_of].
  f_equal. induction Hps as [|p ps [H0 H1] _ IH]; [done|].
  cbn [map mapR]. rewrite IH. f_equal.
  rewrite (dispatch_run h data C _ sorted Hv Hc), dispatch_probability by done.
  unfold checked_quantile. cbn [check_prob].
  assert (Qlt_bool p 0 = false) as -> by (by apply Qlt_bool_false).
  by assert (Qlt_bool 1 p = false) as -> by (by apply Qlt_bool_false).
Qed.

(** C5, amended. A call with a probability list that holds an invalid
    element fails as a whole, and no partial result is returned; the elements
    are checked one at a time, each just before its own quantile is computed
    (lines 146-162 are a single loop): the quantiles of the valid elements in
    front of the first invalid one are computed first, an exception of one of
    them is the exception of the call, otherwise the call throws the error of
    the check of that first invalid element; for it and for the elements
    behind it nothing is checked or computed. *)
Theorem invalid_probability_fails_whole_call (h : gmap nat value) data S sorted :
  h !! data = Some S -> isCollection S = true ->
  (forall ps, Exists (fun p => check_prob p <> Ok tt) ps ->
     ~ is_Ok (dispatch 3 data (VArray ps) (VBoolean sorted) h).2)
  /\ (forall pre bad post e,
        Forall (fun p => check_prob p = Ok tt) pre -> check_prob bad = Throw e ->
        (dispatch 3 data (VArray (pre ++ bad :: post)) (VBoolean sorted) h).2
        = rbind (mapR (fun p => (scalar data p sorted h).2) pre) (fun _ => Throw e)).
Proof.
  intros Hv Hc.
  assert (Hdec : forall pre bad post e,
             Forall (fun p => check_prob p = Ok tt) pre -> check_prob bad = Throw e ->
             (dispatch 3 data (VArray (pre ++ bad :: post)) (VBoolean sorted) h).2
             = rbind (mapR (fun p => (scalar data p sorted h).2) pre) (fun _ => Throw e)).
  { intros pre bad post e Hpre Hbad.
    rewrite (dispatch_run h data S _ sorted Hv Hc). cbn [dispatch_of].
    rewrite mapR_app_throw with (e := e); [|unfold checked_quantile; by rewrite Hbad].
    rewrite (mapR_ext _ (fun p => (scalar data p sorted h).2) pre).
    - by destruct (mapR _ pre).
    - eapply Forall_impl; [exact Hpre|]. intros p Hp. cbv beta in *.
      unfold checked_quantile. rewrite Hp. cbn [rbind].
      by rewrite (scalar_run h data S p sorted Hv Hc). }
  split; [|exact Hdec].
  intros ps Hps [r Hr].
  apply (Exists_first _ _ check_prob_dec) in Hps
    as (pre & bad & post & -> & Hpre & Hbad).
  destruct (check_prob bad) as [[]|e] eqn:He; [done|].
  rewrite (Hdec pre bad post e) in Hr; [|
    eapply Forall_impl; [exact Hpre|];
    intros p Hp; cbv beta in Hp; destruct (check_prob p) as [[]|]; [done|];
    exfalso; by apply Hp |done].
  by destruct (mapR _ pre).
Qed.

(** ** The count form *)

(** C3, amended. For a collection [C] and a native integer [N] with
    [1 < N <= 2^32 - 1] (the injected [isInteger] answering true on it),
    [quantileSeq(C, N)] is the sequence of [quantileSeq(C, i/(N+1))] for
    [i = 1..N], in ascending [i] order: it throws the first exception of
    these calls, if any, and otherwise returns an array of exactly [N]
    results whose element [i - 1] is the result of [quantileSeq(C, i/(N+1))]. *)
Theorem count_form (h : gmap nat value) data C N n sorted :
  h !! data = Some C -> isCollection C = true ->
  to_index N = Some n -> 1 < N -> N <= 4294967295 # 1 ->
  isInteger (VNumber N) = Ok true ->
  (dispatch 3 data (VNumber N) (VBoolean sorted) h).2
  = rbind (mapR (fun i => (dispatch 3 data (VNumber (of_nat (S i) / (N + 1)))
                             (VBoolean sorted) h).2) (seq 0 n))
      (fun rs => Ok (VArray rs))
  /\ (forall r, (dispatch 3 data (VNumber N) (VBoolean sorted) h).2 = Ok r ->
       exists rs, r = VArray rs /\ length rs = n
         /\ forall i, (i < n)%nat ->
              exists x, rs !! i = Some x
                /\ (dispatch 3 data (VNumber (of_nat (S i) / (N + 1)))
                      (VBoolean sorted) h).2 = Ok x).
Proof.
  intros Hv Hc Hn H1 Hmax Hint.
  assert (Heq : (dispatch 3 data (VNumber N) (VBoolean sorted) h).2
                = rbind (mapR (fun i => (dispatch 3 data (VNumber (of_nat (S i) / (N + 1)))
                                           (VBoolean sorted) h).2) (seq 0 n))
                    (fun rs => Ok (VArray rs))).
  { rewrite (dispatch_run h data C _ sorted Hv Hc). cbn [dispatch_of].
    assert (Qlt_bool N 0 = false) as -> by (apply Qlt_bool_false; lra).
    assert (Qle_bool N 1 = false) as -> by (by apply Qle_bool_false).
    rewrite Hint. cbn [rbind negb]. unfold new_Array.
    rewrite (Qle_bool_true _ _ Hmax), Hn. cbn [rbind].
    f_equal. apply mapR_ext, Forall_seq. intros i Hi. cbv beta.
    rewrite (dispatch_run h data C _ sorted Hv Hc).
    destruct (step_is_probability N n i) as [? ?];
      [by apply to_index_Some|lia|].
    by rewrite dispatch_probability. }
  split; [exact Heq|].
  intros r. rewrite Heq. intros (rs & Hrs & [= <-])%rbind_Ok.
  exists rs. split; [done|].
  pose proof (mapR_Ok _ (fun _ => True) _ _ (fun _ _ _ => Logic.I) Hrs) as [Hlen _].
  rewrite length_seq in Hlen. split; [done|].
  intros i Hi.
  destruct (mapR_lookup _ _ _ Hrs i i) as (x & Hx & Hfx);
    [by apply lookup_seq|by exists x].
Qed.

(** ** The forms of the probability argument *)

Lemma mapR_map {A B C} (g : A -> B) (f : B -> result C) l :
  mapR f (map g l) = mapR (fun a => f (g a)) l.
Proof. induction l as [|a l IH]; [done|]. cbn [map mapR]. by rewrite IH. Qed.

(** The check of lines 147-159 passes on the probabilities, and on nothing
    else. *)
Lemma check_prob_Ok c :
  check_prob c = Ok tt <-> exists p, probability_of c = Some p /\ 0 <= p /\ p <= 1.
Proof.
  destruct c as [p|b| | | | | |]; cbn [check_prob probability_of];
    try (split; [done|by intros (p & ? & _)]).
  - destruct (Qlt_bool p 0) eqn:H0; [|destruct (Qlt_bool 1 p) eqn:H1]; cbn [orb].
    + apply Qlt_bool_true in H0. split; [done|]. intros (q & [= <-] & ? & ?). lra.
    + apply Qlt_bool_true in H1. split; [done|]. intros (q & [= <-] & ? & ?). lra.
    + apply Qlt_bool_false in H0, H1. split; [|done]. intros _. by exists p.
  - unfold big_isNegative, big_gt. cbn [big_val].
    destruct (Qlt_bool (big_val b) 0) eqn:H0; [|destruct (Qlt_bool 1 (big_val b)) eqn:H1];
      cbn [orb].
    + apply Qlt_bool_true in H0. split; [done|]. intros (q & [= <-] & ? & ?). lra.
    + apply Qlt_bool_true in H1. split; [done|]. intros (q & [= <-] & ? & ?). lra.
    + apply Qlt_bool_false in H0, H1. split; [|done]. intros _. by exists (big_val b).
Qed.

Lemma checked_probability flat sorted c :
  check_prob c = Ok tt ->
  checked_quantile add multiply partitionSelect compare flat sorted c
  = result_of flat c sorted.
Proof. intros Hc. unfold checked_quantile. by rewrite Hc. Qed.

Lemma check_prob_number p : 0 <= p -> p <= 1 -> check_prob (VNumber p) = Ok tt.
Proof. intros H0 H1. apply check_prob_Ok. by exists p. Qed.

(** The loop of the count form runs at least twice. *)
Lemma count_at_least_two N n : to_index N = Some n -> 1 < N -> (2 <= n)%nat.
Proof.
  intros Hn%to_index_Some HN.
  destruct (decide (2 <= n)%nat) as [|Hlt]; [done|].
  pose proof (of_nat_le n 1 ltac:(lia)) as Hle. change (of_nat 1) with 1 in Hle. lra.
Qed.

(** X1. For a list of native probabilities, each in [0, 1], the list form
    is the sequence of the single calls, in the order of the list: it throws
    the first exception of these calls, if one throws, and otherwise returns
    an array of the length of the list whose element [i] is the result of
    [quantileSeq(data, ps[i], sorted)]. *)
Theorem list_form_of_native_probabilities (h : gmap nat value) data C (ps : list Q) sorted :
  h !! data = Some C -> isCollection C = true ->
  Forall (fun p => 0 <= p /\ p <= 1) ps ->
  let single := fun p => (dispatch 3 data (VNumber p) (VBoolean sorted) h).2 in
  let list_form := (dispatch 3 data (VArray (map VNumber ps)) (VBoolean sorted) h).2 in
  list_form = rbind (mapR single ps) (fun rs => Ok (VArray rs))
  /\ (forall r, list_form = Ok r ->
        exists rs, r = VArray rs /\ length rs = length ps
          /\ forall i p, ps !! i = Some p ->
               exists x, rs !! i = Some x /\ single p = Ok x).
Proof.
  intros Hv Hc Hps single list_form.
  pose proof (list_form_numbers h data C ps sorted Hv Hc Hps) as Heq.
  fold list_form in Heq. split; [exact Heq|].
  intros r. rewrite Heq. intros (rs & Hrs & [= <-])%rbind_Ok.
  exists rs. split; [done|].
  pose proof (mapR_Ok _ (fun _ => True) _ _ (fun _ _ _ => Logic.I) Hrs) as [Hlen _].
  split; [done|]. intros i p Hi.
  destruct (mapR_lookup _ _ _ Hrs i p Hi) as (x & Hx & Hfx). by exists x.
Qed.

(** X2. The list form does not wrap.  For a list of valid probabilities,
    numbers or BigNumbers, each element of the result is what the scalar
    calculator returned for the probability, as it is (line 161).  So for a
    BigNumber probability [b] in [0, 1] the list form [quantileSeq(data, [b])]
    holds the scalar result [r] itself where the single form
    [quantileSeq(data, b)] returns [new BigNumber(r)] (line 117): a native
    number in the one, the BigNumber of that number in the other. *)
Theorem list_form_does_not_wrap (h : gmap nat value) data C b sorted :
  h !! data = Some C -> isCollection C = true ->
  0 <= big_val b -> big_val b <= 1 ->
  let r := (scalar data (VBigNumber b) sorted h).2 in
  let list_form := (dispatch 3 data (VArray [VBigNumber b]) (VBoolean sorted) h).2 in
  let single_form := (dispatch 3 data (VBigNumber b) (VBoolean sorted) h).2 in
  (forall ps, Forall (fun p => check_prob p = Ok tt) ps ->
     (dispatch 3 data (VArray ps) (VBoolean sorted) h).2
     = rbind (mapR (fun p => (scalar data p sorted h).2) ps) (fun rs => Ok (VArray rs)))
  /\ list_form = rbind r (fun x => Ok (VArray [x]))
  /\ single_form = rbind r (new_BigNumber (big_ctor b))
  /\ (forall q, r = Ok (VNumber q) ->
        list_form = Ok (VArray [VNumber q])
        /\ single_form = Ok (VBigNumber (mkBig (big_ctor b) q))).
Proof.
  intros Hv Hc H0 H1 r list_form single_form.
  assert (Hr : r = result_of (flat_of C) (VBigNumber b) sorted)
    by (unfold r; by rewrite (scalar_run h data C _ sorted Hv Hc)).
  assert (Hlist : list_form = rbind r (fun x => Ok (VArray [x]))).
  { unfold list_form.
    rewrite (list_form_unwrapped h data C [VBigNumber b] sorted Hv Hc).
    - cbn [mapR]. fold r. by destruct r.
    - constructor; [|done]. apply check_prob_Ok. by exists (big_val b). }
  assert (Hsingle : single_form = rbind r (new_BigNumber (big_ctor b))).
  { unfold single_form. rewrite (dispatch_run h data C _ sorted Hv Hc), Hr.
    by apply dispatch_big_probability. }
  split; [intros ps Hps; by apply (list_form_unwrapped h data C ps sorted)|].
  split; [done|]. split; [done|].
  intros q Hq. rewrite Hlist, Hsingle, Hq. by split.
Qed.

(** X3. For a native integer [N] with [1 < N <= 2^32 - 1], the count form
    [quantileSeq(data, N, sorted)] and the list form on the probabilities
    [[1/(N+1), ..., N/(N+1)]] have the same outcome: the same array of
    results, or the same exception. *)
Theorem count_form_is_list_form (h : gmap nat value) data C N n sorted :
  h !! data = Some C -> isCollection C = true ->
  to_index N = Some n -> 1 < N -> N <= 4294967295 # 1 ->
  isInteger (VNumber N) = Ok true ->
  (dispatch 3 data (VNumber N) (VBoolean sorted) h).2
  = (dispatch 3 data (VArray (steps N n)) (VBoolean sorted) h).2.
Proof.
  intros Hv Hc Hn H1 Hmax Hint.
  rewrite !(dispatch_run h data C _ sorted Hv Hc). cbn [dispatch_of].
  assert (Qlt_bool N 0 = false) as -> by (apply Qlt_bool_false; lra).
  assert (Qle_bool N 1 = false) as -> by (by apply Qle_bool_false).
  rewrite Hint. cbn [rbind negb]. unfold new_Array.
  rewrite (Qle_bool_true _ _ Hmax), Hn. cbn [rbind].
  unfold steps. rewrite mapR_map. f_equal.
  apply mapR_ext, Forall_seq. intros i Hi. cbv beta.
  destruct (step_is_probability N n i) as [? ?]; [by apply to_index_Some|lia|].
  by rewrite checked_probability by (by apply check_prob_number).
Qed.

(** X4. For a BigNumber [b] whose value is an integer [N] with
    [1 < N <= 2^32 - 1], the count form [quantileSeq(data, b, sorted)] is the
    sequence of the single calls on the BigNumber probabilities
    [BigNumber(i) / BigNumber(N + 1)], [i = 1..N], of the constructor of [b],
    in ascending [i] order: it throws the first exception of these calls, if
    one throws, and otherwise returns the array of their [N] results. *)
Theorem bignumber_count_form (h : gmap nat value) data C b n sorted :
  h !! data = Some C -> isCollection C = true ->
  to_index (big_val b) = Some n -> 1 < big_val b -> big_val b <= 4294967295 # 1 ->
  let step := fun i => VBigNumber (big_div (mkBig (big_ctor b) (of_nat (S i)))
                                     (mkBig (big_ctor b) (big_val b + 1))) in
  let single := fun i => (dispatch 3 data (step i) (VBoolean sorted) h).2 in
  (dispatch 3 data (VBigNumber b) (VBoolean sorted) h).2
  = rbind (mapR single (seq 0 n)) (fun rs => Ok (VArray rs))
  /\ (forall r, (dispatch 3 data (VBigNumber b) (VBoolean sorted) h).2 = Ok r ->
        exists rs, r = VArray rs /\ length rs = n
          /\ forall i, (i < n)%nat -> exists x, rs !! i = Some x /\ single i = Ok x).
Proof.
  intros Hv Hc Hn H1 Hmax step single.
  assert (Heq : (dispatch 3 data (VBigNumber b) (VBoolean sorted) h).2
                = rbind (mapR single (seq 0 n)) (fun rs => Ok (VArray rs))).
  { rewrite (dispatch_run h data C _ sorted Hv Hc). cbn [dispatch_of].
    unfold big_isNegative, big_lte, big_isInteger, big_toNumber. cbn [big_val].
    assert (Qlt_bool (big_val b) 0 = false) as -> by (apply Qlt_bool_false; lra).
    assert (Qle_bool (big_val b) 1 = false) as -> by (by apply Qle_bool_false).
    assert (is_integral (big_val b) = true) as ->
      by (unfold to_index in Hn; by destruct (is_integral _)).
    cbn [negb].
    assert (Qlt_bool (4294967295 # 1) (big_val b) = false) as ->
      by (by apply Qlt_bool_false).
    unfold new_Array. rewrite (Qle_bool_true _ _ Hmax), Hn. cbn [rbind].
    f_equal. apply mapR_ext, Forall_seq. intros i Hi. cbv beta.
    unfold single. rewrite (dispatch_run h data C _ sorted Hv Hc).
    destruct (step_is_probability (big_val b) n i) as [? ?];
      [by apply to_index_Some|lia|].
    unfold step. by rewrite dispatch_big_probability. }
  split; [exact Heq|].
  intros r. rewrite Heq. intros (rs & Hrs & [= <-])%rbind_Ok.
  exists rs. split; [done|].
  pose proof (mapR_Ok _ (fun _ => True) _ _ (fun _ _ _ => Logic.I) Hrs) as [Hlen _].
  rewrite length_seq in Hlen. split; [done|].
  intros i Hi.
  destruct (mapR_lookup _ _ _ Hrs i i) as (x & Hx & Hfx);
    [by apply lookup_seq|by exists x].
Qed.

(** ** Errors of the arguments and of the empty input *)

Lemma quantile_of_empty prob sorted : result_of [] prob sorted = Throw empty_sequence.
Proof. reflexivity. Qed.

(** X5. On a collection that flattens to the empty sequence, every form
    that computes at least one quantile fails with the error of line 188,
    whatever the probability: a probability in [0, 1] (number or BigNumber), a
    count (its loop runs at least twice) and a probability list with a valid
    first element.  Only the empty probability list returns: on every
    collection, empty or not, [quantileSeq(data, [])] is an empty array, and
    nothing is flattened. *)
Theorem empty_collection (h : gmap nat value) data C sorted :
  h !! data = Some C -> isCollection C = true ->
  let call := fun probOrN => (dispatch 3 data probOrN (VBoolean sorted) h).2 in
  (flat_of C = [] ->
   (forall p, 0 <= p -> p <= 1 -> call (VNumber p) = Throw empty_sequence)
   /\ (forall b, 0 <= big_val b -> big_val b <= 1 ->
         call (VBigNumber b) = Throw empty_sequence)
   /\ (forall N n, to_index N = Some n -> 1 < N -> N <= 4294967295 # 1 ->
         isInteger (VNumber N) = Ok true -> call (VNumber N) = Throw empty_sequence)
   /\ (forall b n, to_index (big_val b) = Some n -> 1 < big_val b ->
         big_val b <= 4294967295 # 1 -> call (VBigNumber b) = Throw empty_sequence)
   /\ (forall p ps, check_prob p = Ok tt ->
         call (VArray (p :: ps)) = Throw empty_sequence))
  /\ dispatch 3 data (VArray []) (VBoolean sorted) h = (h, Ok (VArray [])).
Proof.
  intros Hv Hc call. unfold call.
  split; [intros Hflat; repeat split|by enter_dispatch Hv Hc].
  - intros p H0 H1. rewrite (dispatch_run h data C _ sorted Hv Hc), Hflat.
    by rewrite dispatch_probability.
  - intros b H0 H1. rewrite (dispatch_run h data C _ sorted Hv Hc), Hflat.
    by rewrite dispatch_big_probability.
  - intros N n Hn H1 Hmax Hint.
    rewrite (dispatch_run h data C _ sorted Hv Hc), Hflat. cbn [dispatch_of].
    assert (Qlt_bool N 0 = false) as -> by (apply Qlt_bool_false; lra).
    assert (Qle_bool N 1 = false) as -> by (by apply Qle_bool_false).
    rewrite Hint. cbn [rbind negb]. unfold new_Array.
    rewrite (Qle_bool_true _ _ Hmax), Hn. cbn [rbind].
    pose proof (count_at_least_two N n Hn H1).
    by destruct n as [|n]; [lia|].
  - intros b n Hn H1 Hmax.
    rewrite (dispatch_run h data C _ sorted Hv Hc), Hflat. cbn [dispatch_of].
    unfold big_isNegative, big_lte, big_isInteger, big_toNumber. cbn [big_val].
    assert (Qlt_bool (big_val b) 0 = false) as -> by (apply Qlt_bool_false; lra).
    assert (Qle_bool (big_val b) 1 = false) as -> by (by apply Qle_bool_false).
    assert (is_integral (big_val b) = true) as ->
      by (unfold to_index in Hn; by destruct (is_integral _)).
    cbn [negb].
    assert (Qlt_bool (4294967295 # 1) (big_val b) = false) as ->
      by (by apply Qlt_bool_false).
    unfold new_Array. rewrite (Qle_bool_true _ _ Hmax), Hn. cbn [rbind].
    pose proof (count_at_least_two _ n Hn H1).
    by destruct n as [|n]; [lia|].
  - intros p ps Hp.
    rewrite (dispatch_run h data C _ sorted Hv Hc), Hflat. cbn [dispatch_of mapR].
    by rewrite checked_probability.
Qed.

(** X6. The domain errors of the probability argument are raised before the
    collection is looked at: on every collection, whatever it holds (it may
    be empty, or hold values of unsupported kinds), a negative number or
    BigNumber fails with "N/prob must be non-negative", and a number above 1
    that the injected [isInteger] refuses, or a BigNumber above 1 that is not
    an integer, fails with "N must be a positive integer"; the store is the
    one the call started from (nothing was flattened). *)
Theorem domain_errors_precede_computation (h : gmap nat value) data C sorted :
  h !! data = Some C -> isCollection C = true ->
  let call := fun probOrN => dispatch 3 data probOrN (VBoolean sorted) h in
  (forall p, p < 0 ->
     call (VNumber p) = (h, Throw (Error "N/prob must be non-negative")))
  /\ (forall b, big_val b < 0 ->
        call (VBigNumber b) = (h, Throw (Error "N/prob must be non-negative")))
  /\ (forall N, 1 < N -> isInteger (VNumber N) = Ok false ->
        call (VNumber N) = (h, Throw (Error "N must be a positive integer")))
  /\ (forall b, 1 < big_val b -> is_integral (big_val b) = false ->
        call (VBigNumber b) = (h, Throw (Error "N must be a positive integer"))).
Proof.
  intros Hv Hc call. unfold call. repeat split.
  - intros p Hp. enter_dispatch Hv Hc.
    by assert (Qlt_bool p 0 = true) as -> by (by apply Qlt_bool_true).
  - intros b Hb. enter_dispatch Hv Hc. unfold big_isNegative.
    by assert (Qlt_bool (big_val b) 0 = true) as -> by (by apply Qlt_bool_true).
  - intros N HN Hint. enter_dispatch Hv Hc.
    assert (Qlt_bool N 0 = false) as -> by (apply Qlt_bool_false; lra).
    assert (Qle_bool N 1 = false) as -> by (by apply Qle_bool_false).
    unfold bind at 1, lift at 1. by rewrite Hint.
  - intros b Hb Hint. enter_dispatch Hv Hc.
    unfold big_isNegative, big_lte, big_isInteger. cbn [big_val].
    assert (Qlt_bool (big_val b) 0 = false) as -> by (apply Qlt_bool_false; lra).
    assert (Qle_bool (big_val b) 1 = false) as -> by (by apply Qle_bool_false).
    by rewrite Hint.
Qed.

(** X7. A native count above the largest array length: for a number
    [N > 2^32 - 1] that the injected [isInteger] accepts, the call fails with
    the RangeError of [new Array(N)] (line 98), on every collection and
    before it is looked at (the native branch has no guard like that of line
    129 in the BigNumber branch). *)
Theorem native_count_limit (h : gmap nat value) data C N sorted :
  h !! data = Some C -> isCollection C = true ->
  4294967295 # 1 < N -> isInteger (VNumber N) = Ok true ->
  dispatch 3 data (VNumber N) (VBoolean sorted) h
  = (h, Throw (RangeError "Invalid array length")).
Proof.
  intros Hv Hc HN Hint. enter_dispatch Hv Hc.
  assert (Qlt_bool N 0 = false) as -> by (apply Qlt_bool_false; lra).
  assert (Qle_bool N 1 = false) as -> by (apply Qle_bool_false; lra).
  unfold bind at 1, lift at 1. rewrite Hint. cbn [negb].
  unfold bind at 1, lift at 1, new_Array.
  by assert (Qle_bool N (4294967295 # 1) = false) as -> by (by apply Qle_bool_false).
Qed.

(** X8. A BigNumber probability cannot be used on quantities: when the
    scalar calculator answers a BigNumber probability in [0, 1] with a Unit
    (as it does on a collection of Units), [quantileSeq] does not return it;
    the wrapping [new BigNumber(...)] of line 117 refuses the Unit and the
    call throws the error of the constructor. *)
Theorem bignumber_probability_refuses_units (h : gmap nat value) data C b sorted m u :
  h !! data = Some C -> isCollection C = true ->
  0 <= big_val b -> big_val b <= 1 ->
  (scalar data (VBigNumber b) sorted h).2 = Ok (VUnit m u) ->
  exists msg, (dispatch 3 data (VBigNumber b) (VBoolean sorted) h).2 = Throw (Error msg).
Proof.
  intros Hv Hc H0 H1 Hunit.
  rewrite (scalar_run h data C _ sorted Hv Hc) in Hunit. cbn [snd] in Hunit.
  rewrite (dispatch_run h data C _ sorted Hv Hc), dispatch_big_probability by done.
  rewrite Hunit. by eexists.
Qed.

(** ** The sorted path *)

Lemma integral_index x :
  0 <= x -> is_integral x = true -> x == of_nat (Z.to_nat (Qfloor x)).
Proof.
  intros Hx Hint. unfold is_integral in Hint. apply Qeq_bool_iff in Hint.
  rewrite Hint at 1. unfold of_nat.
  by rewrite Z2Nat.id by (by apply Qfloor_nonneg).
Qed.

Lemma array_get_at flat index k x :
  to_index index = Some k -> flat !! k = Some x -> array_get flat index = x.
Proof. intros Hk Hx. unfold array_get. by rewrite Hk, Hx. Qed.

Lemma validate_then x : rbind (validate x) (fun _ => Ok x) = validate x.
Proof. unfold validate. by destruct (supported x). Qed.

Lemma nonempty_length {A} (l : list A) : l <> [] -> (0 < length l)%nat.
Proof. destruct l; [done|]. simpl. lia. Qed.

(** With [sorted], an exact rank reads one position of the array. *)
Lemma sorted_exact_result flat prob p k x :
  probability_of prob = Some p -> 0 <= p -> p <= 1 ->
  p * (of_nat (length flat) - 1) == of_nat k -> flat !! k = Some x ->
  result_of flat prob true = validate x.
Proof.
  intros Hp H0 H1 Hk Hx.
  assert (Hne : flat <> []) by (by destruct flat).
  destruct (rank_of_exact prob p (length flat) k Hp H0 H1 (nonempty_length _ Hne) Hk)
    as (Hrank & Hidx & _).
  unfold quantile_of. rewrite (length_nonempty _ Hne), Hrank.
  unfold exact_rank_of, consulted. rewrite (array_get_at flat _ k x Hidx Hx).
  cbn [rbind]. apply validate_then.
Qed.



(** X10. On a collection that flattens to a single supported element [x],
    every probability in [0, 1] (number or BigNumber) has the index 0 and the
    scalar calculator returns [x], with [sorted = true] and, the selection
    honouring its contract on [[x]], with [sorted = false]; for a native
    probability this is the result of [quantileSeq]. *)
Theorem single_element_collection (h : gmap nat value) data C x prob p sorted :
  h !! data = Some C -> isCollection C = true ->
  flat_of C = [x] -> supported x = true ->
  (sorted = false -> selection_contract partitionSelect compare [x]) ->
  probability_of prob = Some p -> 0 <= p -> p <= 1 ->
  (scalar data prob sorted h).2 = Ok x
  /\ (isNumber prob = true -> (dispatch 3 data prob (VBoolean sorted) h).2 = Ok x).
Proof.
  intros Hv Hc Hflat Hx Hsel Hp H0 H1.
  assert (Hk : p * (of_nat (length [x]) - 1) == of_nat 0).
  { change (of_nat (length [x])) with 1. change (of_nat 0) with 0. ring. }
  assert (Hres : result_of [x] prob sorted = Ok x).
  { destruct sorted.
    - rewrite (sorted_exact_result [x] prob p 0 x Hp H0 H1 Hk eq_refl).
      unfold validate. by rewrite Hx.
    - destruct (rank_of_exact prob p 1 0 Hp H0 H1 ltac:(lia) Hk) as (Hrank & Hidx & _).
      destruct (Hsel eq_refl _ 0%nat Hidx ltac:(simpl; lia))
        as (v & Hv2 & Hperm & Hat & _).
      apply Permutation_singleton_r in Hperm. rewrite Hperm in Hat.
      injection Hat as <-.
      unfold quantile_of. cbn [length Nat.eqb]. rewrite Hrank.
      unfold exact_rank_of, consulted. rewrite Hv2. cbn [rbind].
      unfold validate. by rewrite Hx. }
  split.
  - by rewrite (scalar_run h data C prob sorted Hv Hc), Hflat.
  - destruct prob; try done. intros _. injection Hp as ->.
    rewrite (dispatch_run h data C _ sorted Hv Hc), Hflat.
    by rewrite dispatch_probability.
Qed.




(** ** The collection *)

(** X11. Only the flattened sequence counts: two collections, arrays or
    matrices of any nesting, that flatten to the same sequence have the same
    outcome for every probability argument and sorted flag; in particular a
    nested array or a matrix has the quantiles of the flat array of its
    elements. *)
Theorem shape_is_irrelevant (h : gmap nat value) data C (h' : gmap nat value) data' C'
    probOrN sorted :
  h !! data = Some C -> isCollection C = true ->
  h' !! data' = Some C' -> isCollection C' = true ->
  flat_of C = flat_of C' ->
  (dispatch 3 data probOrN (VBoolean sorted) h).2
  = (dispatch 3 data' probOrN (VBoolean sorted) h').2.
Proof.
  intros Hv Hc Hv' Hc' Hflat.
  by rewrite (dispatch_run h data C _ sorted Hv Hc),
    (dispatch_run h' data' C' _ sorted Hv' Hc'), Hflat.
Qed.

(** X12. Calls do not interfere: after any call on the collection [data]
    (whatever its arguments, and whether it returned or threw), a call on
    [data] has the outcome it would have had before; the reordering of the
    selection never reaches a later call. *)
Theorem calls_do_not_interfere (h : gmap nat value) data C
    nargs probOrN1 sorted1 probOrN2 sorted2 :
  h !! data = Some C -> isCollection C = true ->
  let h1 := (dispatch nargs data probOrN1 sorted1 h).1 in
  (dispatch 3 data probOrN2 (VBoolean sorted2) h1).2
  = (dispatch 3 data probOrN2 (VBoolean sorted2) h).2.
Proof.
  intros Hv Hc h1.
  assert (Hv1 : h1 !! data = Some C).
  { eapply lookup_weaken; [exact Hv|]. apply frames_dispatch. }
  by rewrite (dispatch_run h1 data C _ sorted2 Hv1 Hc),
    (dispatch_run h data C _ sorted2 Hv Hc).
Qed.

(** ** Order statistics *)

Section Order.

Variable D : value -> Prop.
Hypothesis HD : total_preorder_on compare D.

Local Abbreviation lev := (le compare).

Lemma le_refl a : D a -> lev a a.
Proof. intros Ha. by destruct (le_total _ _ HD a a Ha Ha). Qed.

(** A positive answer of [compare(a, b)] puts [b] below [a]. *)
Lemma le_of_positive a b c :
  D a -> D b -> compare a b = Ok c -> (0 < c)%Z -> lev b a.
Proof.
  intros Ha Hb Hc Hpos.
  destruct (le_total _ _ HD a b Ha Hb) as [(c' & Hc' & Hle)|]; [|done].
  rewrite Hc in Hc'. injection Hc' as <-. lia.
Qed.

Lemma insert_sorted x s :
  D x -> Forall D s -> StronglySorted lev s ->
  exists s', s' ≡ₚ x :: s /\ Forall D s' /\ StronglySorted lev s'.
Proof.
  intros Hx. induction s as [|y s IH]; intros Hs Hsorted.
  - exists [x]. split; [done|]. split; [by constructor|repeat constructor].
  - apply Forall_cons in Hs as [Hy Hs].
    apply StronglySorted_cons in Hsorted as [Hys Hsorted].
    destruct (le_total _ _ HD x y Hx Hy) as [Hxy|Hyx].
    + exists (x :: y :: s). split; [done|]. split; [by repeat constructor|].
      constructor; [by constructor|]. constructor; [done|].
      rewrite Forall_forall in Hs, Hys. apply Forall_forall. intros z Hz.
      apply (le_trans _ _ HD x y z); auto.
    + destruct (IH Hs Hsorted) as (s' & Hperm & HDs' & Hs').
      exists (y :: s'). split; [rewrite Hperm; apply Permutation_swap|].
      split; [by constructor|]. constructor; [done|].
      rewrite Hperm. by constructor.
Qed.

(** Every sequence of values of [D] has an ascending arrangement. *)
Lemma sorted_exists l :
  Forall D l -> exists s, s ≡ₚ l /\ Forall D s /\ StronglySorted lev s.
Proof.
  induction l as [|x l IH]; intros Hl.
  - exists []. split; [done|]. split; constructor.
  - apply Forall_cons in Hl as [Hx Hl].
    destruct (IH Hl) as (s & Hperm & HDs & Hs).
    destruct (insert_sorted x s Hx HDs Hs) as (s' & Hperm' & HDs' & Hs').
    exists s'. split; [by rewrite Hperm', Hperm|done].
Qed.

(** An element that nothing before it exceeds and nothing after it undercuts
    is the order statistic of its position. *)
Lemma arranged pre v post :
  Forall D (pre ++ v :: post) ->
  Forall (fun x => lev x v) pre -> Forall (lev v) post ->
  exists s, s ≡ₚ pre ++ v :: post /\ StronglySorted lev s
            /\ s !! length pre = Some v.
Proof.
  intros (Hpre & (Hv & Hpost)%Forall_cons)%Forall_app Hlow Hhigh.
  destruct (sorted_exists pre Hpre) as (s1 & Hp1 & HD1 & Hs1).
  destruct (sorted_exists post Hpost) as (s2 & Hp2 & HD2 & Hs2).
  exists (s1 ++ v :: s2). split; [by rewrite Hp1, Hp2|]. split.
  - apply StronglySorted_app_2; [|done|constructor; [done|by rewrite Hp2]].
    intros x1 x2 Hx1 Hx2. rewrite Forall_forall in Hlow, Hhigh, HD1, HD2.
    rewrite Hp1 in Hx1. apply elem_of_cons in Hx2 as [->|Hx2]; [auto|].
    rewrite Hp2 in Hx2.
    apply (le_trans _ _ HD x1 v x2); auto.
    + apply HD1. by rewrite Hp1.
    + apply HD2. by rewrite Hp2.
  - rewrite <- (Permutation_length Hp1). apply list_lookup_middle. done.
Qed.

(** Two neighbours in order, with everything before them below the first
    and everything after them above the second. *)
Lemma arranged_pair pre a b post :
  Forall D (pre ++ a :: b :: post) ->
  Forall (fun x => lev x a) pre -> lev a b -> Forall (lev b) post ->
  exists s, s ≡ₚ pre ++ a :: b :: post /\ StronglySorted lev s
            /\ s !! length pre = Some a /\ s !! S (length pre) = Some b.
Proof.
  intros (Hpre & (Ha & (Hb & Hpost)%Forall_cons)%Forall_cons)%Forall_app Hlow Hab Hhigh.
  destruct (sorted_exists pre Hpre) as (s1 & Hp1 & HD1 & Hs1).
  destruct (sorted_exists post Hpost) as (s2 & Hp2 & HD2 & Hs2).
  exists (s1 ++ a :: b :: s2). split; [by rewrite Hp1, Hp2|].
  rewrite Forall_forall in Hlow, Hhigh, HD1, HD2.
  assert (Hbs2 : Forall (lev b) s2).
  { apply Forall_forall. intros x Hx. rewrite Hp2 in Hx. auto. }
  assert (Has2 : Forall (lev a) s2).
  { apply Forall_forall. intros x Hx.
    apply (le_trans _ _ HD a b x); auto.
    rewrite Forall_forall in Hbs2. auto. }
  split; [|split].
  - apply StronglySorted_app_2; [|done|by repeat constructor].
    intros x1 x2 Hx1 Hx2.
    assert (lev x1 a) by (rewrite Hp1 in Hx1; auto).
    apply elem_of_cons in Hx2 as [->|Hx2]; [done|].
    apply (le_trans _ _ HD x1 a x2); auto.
    + apply elem_of_cons in Hx2 as [->|Hx2]; [done|]. auto.
    + apply elem_of_cons in Hx2 as [->|Hx2]; [done|].
      rewrite Forall_forall in Has2. auto.
  - rewrite <- (Permutation_length Hp1). by apply list_lookup_middle.
  - rewrite <- (Permutation_length Hp1).
    rewrite (lookup_app_r s1) by lia.
    by replace (S (length s1) - length s1)%nat with 1%nat by lia.
Qed.

(** What the selection answers for a rank is an order statistic of that rank. *)
Lemma selects_kth l rank out :
  Forall D l -> selects compare l rank out ->
  exists v, out.2 = Ok v /\ kth_smallest compare l rank v.
Proof.
  intros Hl (v & Hv & Hperm & Hk & Hlow & Hhigh). exists v. split; [done|].
  pose proof (take_drop_middle _ _ _ Hk) as Hmid.
  destruct (arranged (take rank out.1) v (drop (S rank) out.1))
    as (s & Hs & Hsorted & Hat); [by rewrite Hmid, Hperm|done..|].
  exists s. split; [by rewrite Hs, Hmid|]. split; [done|].
  apply lookup_lt_Some in Hk. by rewrite length_take_le in Hat by lia.
Qed.

(** The scan of lines 214-218 returns a maximum of its start value and of
    the positions it visits. *)
Lemma scan_max_spec flat idxs left :
  Forall D flat -> D left -> Forall (fun i => (i < length flat)%nat) idxs ->
  exists r, scan_max compare flat idxs left = Ok r /\ D r /\ lev left r
    /\ Forall (fun i => forall x, flat !! i = Some x -> lev x r) idxs
    /\ (r = left \/ exists i, i ∈ idxs /\ flat !! i = Some r).
Proof.
  intros Hflat. revert left.
  induction idxs as [|i rest IH]; intros left Hleft Hidx.
  - exists left. split; [done|]. split; [done|]. split; [by apply le_refl|].
    split; [constructor|by left].
  - apply Forall_cons in Hidx as [Hi Hrest].
    destruct (lookup_lt_is_Some_2 _ _ Hi) as [x Hx].
    assert (Dx : D x) by (eapply Forall_lookup_1; eauto).
    cbn [scan_max]. rewrite Hx. cbn [default from_option id].
    destruct (compare_defined _ _ HD x left Dx Hleft) as [c Hc].
    rewrite Hc. cbn [rbind].
    destruct (0 <? c)%Z eqn:Hpos.
    + apply Z.ltb_lt in Hpos.
      destruct (IH x Dx Hrest) as (r & Hr & Dr & Hxr & Hall & Hin).
      exists r. split; [done|]. split; [done|].
      assert (lev left x) by (eapply le_of_positive; eauto).
      split; [apply (le_trans _ _ HD left x r); auto|].
      split.
      * constructor; [|done]. intros x'. rewrite Hx. by intros [= <-].
      * right. destruct Hin as [->|(j & Hj & Hjr)].
        -- exists i. split; [apply list_elem_of_here|done].
        -- exists j. split; [by apply list_elem_of_further|done].
    + apply Z.ltb_ge in Hpos.
      destruct (IH left Hleft Hrest) as (r & Hr & Dr & Hlr & Hall & Hin).
      exists r. split; [done|]. split; [done|]. split; [done|].
      split.
      * constructor; [|done]. intros x'. rewrite Hx. intros [= <-].
        apply (le_trans _ _ HD x left r); auto. by exists c.
      * destruct Hin as [->|(j & Hj & Hjr)]; [by left|right].
        exists j. split; [by apply list_elem_of_further|done].
Qed.

Lemma to_index_floor ip k : to_index ip = Some k -> Z.to_nat (Qfloor ip) = k.
Proof.
  unfold to_index. destruct (_ && _); [|done]. by intros [= <-].
Qed.

Lemma to_index_succ ip k : to_index ip = Some k -> to_index (ip + 1) = Some (S k).
Proof.
  intros Hk%to_index_Some. apply to_index_of. rewrite of_nat_S, Hk. reflexivity.
Qed.

(** After the selection of rank [k + 1], the scan over positions [0..k]
    finds the order statistic of rank [k]: the two endpoints are neighbours
    in an ascending arrangement of the sequence. *)
Lemma endpoints_adjacent l ip k :
  Forall D l -> to_index ip = Some k -> (S k < length l)%nat ->
  selects compare l (S k) (partitionSelect l (ip + 1)) ->
  exists left right s,
    endpoints_of partitionSelect compare l ip false = Ok (left, right)
    /\ s ≡ₚ l /\ StronglySorted lev s
    /\ s !! k = Some left /\ s !! S k = Some right
    /\ (partitionSelect l (ip + 1)).2 = Ok right
    /\ left ∈ take (S k) (partitionSelect l (ip + 1)).1
    /\ Forall (fun x => lev x left) (take (S k) (partitionSelect l (ip + 1)).1).
Proof.
  intros Hl Hip Hlen (right & Hr & Hperm & Hk & Hlow & Hhigh).
  unfold endpoints_of. set (out := partitionSelect l (ip + 1)) in *.
  rewrite Hr. cbn [rbind]. rewrite (to_index_floor _ _ Hip).
  unfold array_get. rewrite Hip.
  assert (Hout : Forall D out.1) by (by rewrite Hperm).
  assert (Hlen' : length out.1 = length l) by (by rewrite Hperm).
  destruct (lookup_lt_is_Some_2 out.1 k) as [x0 Hx0]; [lia|].
  rewrite Hx0. cbn [default from_option id].
  destruct (scan_max_spec out.1 (seq 0 k) x0) as (left & Hscan & Dleft & Hx0l & Hall & Hin).
  { done. }
  { eapply Forall_lookup_1; eauto. }
  { apply Forall_seq. intros i Hi. lia. }
  rewrite Hscan. cbn [rbind].
  assert (Hmem : left ∈ take (S k) out.1).
  { apply elem_of_take. destruct Hin as [->|(i & Hi & Hil)].
    - exists k. split; [done|lia].
    - exists i. split; [done|]. apply elem_of_seq in Hi. lia. }
  assert (Hmax : Forall (fun x => lev x left) (take (S k) out.1)).
  { apply Forall_forall. intros x (j & Hj & Hjk)%elem_of_take.
    destruct (decide (j = k)) as [->|Hne].
    - rewrite Hx0 in Hj. by injection Hj as <-.
    - rewrite Forall_seq in Hall. apply (Hall j); [lia|done]. }
  exists left, right.
  apply elem_of_Permutation in Hmem as [rest Hrest].
  pose proof (take_drop_middle _ _ _ Hk) as Hmid.
  assert (Hall' : rest ++ left :: right :: drop (S (S k)) out.1 ≡ₚ l).
  { rewrite <- Hperm. rewrite <- Hmid at 2. rewrite Hrest.
    symmetry. apply Permutation_middle. }
  assert (Hrl : length rest = k).
  { apply Permutation_length in Hrest. rewrite length_take_le in Hrest by lia.
    simpl in Hrest. lia. }
  destruct (arranged_pair rest left right (drop (S (S k)) out.1))
    as (s & Hs & Hsorted & Hat & Hat').
  - by rewrite Hall'.
  - rewrite Hrest in Hmax. by apply Forall_cons in Hmax as [_ ?].
  - rewrite Forall_forall in Hlow. apply Hlow. rewrite Hrest. apply list_elem_of_here.
  - done.
  - exists s. rewrite Hrl in Hat, Hat'. rewrite Hrest.
    split; [done|]. split; [by rewrite Hs|]. split; [done|].
    split; [done|]. split; [done|]. split; [done|].
    split; [apply list_elem_of_here|]. by rewrite <- Hrest.
Qed.

(** *** Order statistics do not depend on the arrangement *)

Lemma count_above_Permutation b l1 l2 :
  l1 ≡ₚ l2 -> count_above compare b l1 = count_above compare b l2.
Proof.
  induction 1; cbn [count_above]; lia.
Qed.

Lemma count_above_app b l1 l2 :
  count_above compare b (l1 ++ l2)
  = (count_above compare b l1 + count_above compare b l2)%nat.
Proof.
  induction l1 as [|x l1 IH]; cbn [count_above app]; lia.
Qed.

Lemma count_above_all b l :
  Forall (fun x => above compare x b = true) l -> count_above compare b l = length l.
Proof.
  induction 1 as [|x l Hx _ IH]; cbn [count_above length]; [done|].
  rewrite Hx. lia.
Qed.

Lemma count_above_none b l :
  Forall (fun x => above compare x b = false) l -> count_above compare b l = 0%nat.
Proof.
  induction 1 as [|x l Hx _ IH]; cbn [count_above]; [done|].
  rewrite Hx. lia.
Qed.

Lemma count_above_le b l : (count_above compare b l <= length l)%nat.
Proof.
  induction l as [|x l IH]; cbn [count_above length]; [done|].
  destruct (above compare x b); lia.
Qed.

Lemma above_false x b : lev x b -> above compare x b = false.
Proof.
  intros (c & Hc & Hle). unfold above. rewrite Hc. apply Z.ltb_ge. lia.
Qed.

Lemma not_above_le x b : D x -> D b -> above compare x b = false -> lev x b.
Proof.
  intros Hx Hb. unfold above.
  destruct (compare_defined _ _ HD x b Hx Hb) as [c Hc]. rewrite Hc.
  intros Hle%Z.ltb_ge. by exists c.
Qed.

Lemma StronglySorted_lookup (s : list value) i j a b :
  StronglySorted lev s -> (i < j)%nat ->
  s !! i = Some a -> s !! j = Some b -> lev a b.
Proof.
  intros Hs Hij Hi Hj.
  rewrite <- (take_drop_middle _ _ _ Hj) in Hs.
  eapply StronglySorted_app_1_elem_of; [exact Hs| |apply list_elem_of_here].
  apply elem_of_take. eauto.
Qed.

(** In two ascending arrangements of one sequence, an earlier position of
    the first never holds more than a later position of the second. *)
Lemma rank_mono l s1 s2 i j a b :
  Forall D l -> s1 ≡ₚ l -> s2 ≡ₚ l ->
  StronglySorted lev s1 -> StronglySorted lev s2 ->
  s1 !! i = Some a -> s2 !! j = Some b -> (i <= j)%nat -> lev a b.
Proof.
  intros Hl Hp1 Hp2 Hs1 Hs2 Hi Hj Hij.
  assert (HD1 : Forall D s1) by (by rewrite Hp1).
  assert (HD2 : Forall D s2) by (by rewrite Hp2).
  assert (Da : D a) by (exact (Forall_lookup_1 _ _ _ _ HD1 Hi)).
  assert (Db : D b) by (exact (Forall_lookup_1 _ _ _ _ HD2 Hj)).
  destruct (above compare a b) eqn:Hab; [|by apply not_above_le].
  exfalso.
  (* everything from position [i] on in [s1] is above [b] *)
  assert (H1 : (length s1 - i <= count_above compare b s1)%nat).
  { rewrite <- (take_drop i s1) at 2. rewrite count_above_app.
    rewrite (count_above_all b (drop i s1)); [rewrite length_drop; lia|].
    apply Forall_forall. intros x (n & Hn)%list_elem_of_lookup.
    rewrite lookup_drop in Hn.
    assert (Dx : D x) by (exact (Forall_lookup_1 _ _ _ _ HD1 Hn)).
    destruct (above compare x b) eqn:Hxb; [done|].
    apply not_above_le in Hxb; [|done..].
    assert (lev a x).
    { destruct n as [|n].
      - rewrite Nat.add_0_r, Hi in Hn. injection Hn as <-. by apply le_refl.
      - eapply (StronglySorted_lookup s1 i (i + S n)); eauto. lia. }
    rewrite (above_false a b) in Hab; [done|].
    apply (le_trans _ _ HD a x b); auto. }
  (* nothing up to position [j] in [s2] is above [b] *)
  assert (H2 : (count_above compare b s2 <= length s2 - S j)%nat).
  { rewrite <- (take_drop (S j) s2) at 1. rewrite count_above_app.
    rewrite (count_above_none b (take (S j) s2)).
    - pose proof (count_above_le b (drop (S j) s2)) as Hle.
      rewrite length_drop in Hle. lia.
    - apply Forall_forall. intros x (n & Hn & Hnj)%elem_of_take.
      apply above_false.
      destruct (decide (n = j)) as [->|Hne].
      + rewrite Hj in Hn. injection Hn as <-. by apply le_refl.
      + eapply (StronglySorted_lookup s2 n j); eauto. lia. }
  rewrite (count_above_Permutation b s1 s2) in H1 by (by rewrite Hp1, Hp2).
  apply lookup_lt_Some in Hi, Hj.
  rewrite (Permutation_length Hp1) in H1, Hi.
  rewrite (Permutation_length Hp2) in H2, Hj. lia.
Qed.

(** Two order statistics of the same rank are equal for [compare]. *)
Lemma kth_smallest_unique l k x y :
  Forall D l -> kth_smallest compare l k x -> kth_smallest compare l k y ->
  lev x y /\ lev y x.
Proof.
  intros Hl (s1 & Hp1 & Hs1 & Hx) (s2 & Hp2 & Hs2 & Hy).
  split.
  - exact (rank_mono l s1 s2 k k x y Hl Hp1 Hp2 Hs1 Hs2 Hx Hy (Nat.le_refl k)).
  - exact (rank_mono l s2 s1 k k y x Hl Hp2 Hp1 Hs2 Hs1 Hy Hx (Nat.le_refl k)).
Qed.

(** *** The two branches of the scalar calculator, unsorted *)

Lemma kth_smallest_elem l k x : kth_smallest compare l k x -> x ∈ l.
Proof.
  intros (s & Hp & _ & Hk). rewrite <- Hp. by eapply list_elem_of_lookup_2.
Qed.

Lemma exact_result flat prob index k :
  flat <> [] -> Forall D flat -> (forall x, D x -> supported x = true) ->
  selection_contract partitionSelect compare flat ->
  rank_of (length flat) prob = Some (Exact_rank index) ->
  to_index index = Some k -> (k < length flat)%nat ->
  exists x, result_of flat prob false = Ok x /\ kth_smallest compare flat k x.
Proof.
  intros Hne Hflat Hsup Hsel Hrank Hidx Hk.
  destruct (selects_kth flat k _ Hflat (Hsel index k Hidx Hk)) as (v & Hv & Hkth).
  exists v. split; [|done].
  unfold quantile_of. rewrite (length_nonempty _ Hne), Hrank.
  unfold exact_rank_of, consulted. rewrite Hv. cbn [rbind]. unfold validate.
  rewrite Hsup; [done|].
  rewrite Forall_forall in Hflat. by apply Hflat, (kth_smallest_elem flat k).
Qed.

Lemma between_result flat prob k w1 w2 :
  flat <> [] -> Forall D flat -> (forall x, D x -> supported x = true) ->
  selection_contract partitionSelect compare flat ->
  rank_of (length flat) prob = Some (Between (of_nat k) w1 w2) ->
  (S k < length flat)%nat ->
  exists left right s,
    result_of flat prob false = combine add multiply left right w1 w2
    /\ s ≡ₚ flat /\ StronglySorted lev s
    /\ s !! k = Some left /\ s !! S k = Some right
    /\ (partitionSelect flat (of_nat k + 1)).2 = Ok right
    /\ left ∈ take (S k) (partitionSelect flat (of_nat k + 1)).1
    /\ Forall (fun x => lev x left) (take (S k) (partitionSelect flat (of_nat k + 1)).1).
Proof.
  intros Hne Hflat Hsup Hsel Hrank Hk.
  assert (Hidx : to_index (of_nat k) = Some k) by (by apply to_index_of).
  destruct (endpoints_adjacent flat (of_nat k) k Hflat Hidx Hk)
    as (left & right & s & Hends & Hp & Hs & Hl & Hr & Hsel' & Hmem & Hmax).
  { apply Hsel; [by apply to_index_succ|done]. }
  exists left, right, s.
  split; [|done].
  unfold quantile_of. rewrite (length_nonempty _ Hne), Hrank, Hends.
  cbn [rbind]. unfold interpolate, validate. cbn [fst snd].
  rewrite Forall_forall in Hflat.
  rewrite !Hsup; [done|..]; apply Hflat; rewrite <- Hp;
    by eapply list_elem_of_lookup_2.
Qed.

(** C2. For a collection that flattens to a non-empty sequence [flat] of
    values that [compare] orders totally and that the selection primitive
    serves by its contract, and a probability [p] in [0, 1] (a number, or a
    BigNumber) such that [p * (len - 1)] is the integer [k]: the scalar
    calculator returns a [k]-th smallest element of [flat], and so does
    [quantileSeq(S, p, false)] for a number [p] (for a BigNumber [p] it
    returns [new BigNumber] of that element); this element is a [k]-th
    smallest element of every rearrangement of [flat], and any other [k]-th
    smallest element is equal to it for [compare] (the result does not depend
    on the initial order); for [p = 0] it is a minimum of [flat] and for
    [p = 1] a maximum. *)
Theorem exact_rank_quantile (h : gmap nat value) data C prob p k :
  h !! data = Some C -> isCollection C = true ->
  let flat := flat_of C in
  flat <> [] -> Forall D flat -> (forall x, D x -> supported x = true) ->
  selection_contract partitionSelect compare flat ->
  probability_of prob = Some p -> 0 <= p -> p <= 1 ->
  p * (of_nat (length flat) - 1) == of_nat k ->
  exists x,
    (scalar data prob false h).2 = Ok x
    /\ (isNumber prob = true -> (dispatch 3 data prob (VBoolean false) h).2 = Ok x)
    /\ (forall b, prob = VBigNumber b ->
          (dispatch 3 data prob (VBoolean false) h).2 = new_BigNumber (big_ctor b) x)
    /\ kth_smallest compare flat k x
    /\ (forall flat', flat' ≡ₚ flat ->
          kth_smallest compare flat' k x
          /\ forall y, kth_smallest compare flat' k y -> lev x y /\ lev y x)
    /\ (p == 0 -> x ∈ flat /\ Forall (lev x) flat)
    /\ (p == 1 -> x ∈ flat /\ Forall (fun y => lev y x) flat).
Proof.
  intros Hv Hc flat Hne Hflat Hsup Hsel Hp H0 H1 Hk.
  assert (Hlen : (0 < length flat)%nat) by (destruct flat; [done|simpl; lia]).
  destruct (rank_of_exact prob p (length flat) k Hp H0 H1 Hlen Hk)
    as (Hrank & Hidx & Hlt).
  destruct (exact_result flat prob _ k Hne Hflat Hsup Hsel Hrank Hidx Hlt)
    as (x & Hx & Hkth).
  exists x.
  assert (Hscalar : (scalar data prob false h).2 = Ok x)
    by (by rewrite (scalar_run h data C prob false Hv Hc)).
  split; [done|]. split.
  { destruct prob; try done. intros _. injection Hp as ->.
    rewrite (dispatch_run h data C _ false Hv Hc).
    by rewrite dispatch_probability. }
  split.
  { intros b ->. injection Hp as <-.
    rewrite (dispatch_run h data C _ false Hv Hc).
    rewrite dispatch_big_probability by done.
    fold flat. by rewrite Hx. }
  split; [done|]. split.
  { intros flat' Hperm.
    assert (Hkth' : kth_smallest compare flat' k x).
    { destruct Hkth as (s & Hs & Hsorted & Hat). exists s. by rewrite Hperm. }
    split; [done|]. intros y Hy.
    apply (kth_smallest_unique flat' k); [by rewrite Hperm|done..]. }
  pose proof (kth_smallest_elem flat k x Hkth) as Hin.
  destruct Hkth as (s & Hs & Hsorted & Hat).
  assert (HDs : Forall D s) by (by rewrite Hs).
  assert (Dx : D x) by (exact (Forall_lookup_1 _ _ _ _ HDs Hat)).
  split.
  - intros Hp0. split; [done|].
    assert (k = 0%nat) as ->.
    { assert (Hz : of_nat k == inject_Z 0) by (rewrite <- Hk, Hp0; ring).
      pose proof (proj1 (inject_Z_injective _ _) Hz). lia. }
    rewrite <- Hs. apply Forall_forall. intros y (n & Hn)%list_elem_of_lookup.
    destruct n as [|n].
    + rewrite Hat in Hn. injection Hn as <-. by apply le_refl.
    + eapply (StronglySorted_lookup s 0 (S n)); eauto. lia.
  - intros Hp1. split; [done|].
    assert (S k = length flat) as Hlast.
    { assert (Hz : of_nat (S k) == of_nat (length flat))
        by (rewrite of_nat_S, <- Hk, Hp1; ring).
      pose proof (proj1 (inject_Z_injective _ _) Hz). lia. }
    rewrite <- Hs. apply Forall_forall. intros y (n & Hn)%list_elem_of_lookup.
    pose proof (lookup_lt_Some _ _ _ Hn) as Hnlt.
    rewrite (Permutation_length Hs), <- Hlast in Hnlt.
    destruct (decide (n = k)) as [->|Hne'].
    + rewrite Hat in Hn. injection Hn as <-. by apply le_refl.
    + eapply (StronglySorted_lookup s n k); eauto. lia.
Qed.


(** *** Monotonicity *)







(** *** The sorted flag, the range of the data, the order of the counts *)





(** *** The median *)

Lemma of_nat_double (m : nat) : of_nat (2 * m) == 2 * of_nat m.
Proof.
  unfold of_nat. rewrite Nat2Z.inj_mul, inject_Z_mult. reflexivity.
Qed.

Lemma Qfloor_unique (z : Z) x : inject_Z z <= x -> x < inject_Z z + 1 -> Qfloor x = z.
Proof.
  intros Hle Hlt.
  pose proof (Qfloor_le x) as Hf1. pose proof (Qlt_floor x) as Hf2.
  rewrite inject_Z_plus in Hf2. change (inject_Z 1) with 1 in Hf2.
  assert (H1 : inject_Z z < inject_Z (Qfloor x) + 1) by lra.
  assert (H2 : inject_Z (Qfloor x) < inject_Z z + 1) by lra.
  change 1 with (inject_Z 1) in H1, H2. rewrite <- inject_Z_plus in H1, H2.
  rewrite <- Zlt_Qlt in H1, H2. lia.
Qed.

(** X16. [quantileSeq(data, 0.5)] is the median: on [2m + 1] elements it
    returns an element of rank [m] (the middle one of an ascending
    arrangement), and on [2m + 2] elements the combination
    [add(multiply(a, 1 - f), multiply(b, f))] of the two middle elements, of
    ranks [m] and [m + 1], with the weight [f = 1/2] ([compare] a total
    preorder on the elements, the selection honouring its contract). *)
Theorem half_quantile_is_median (h : gmap nat value) data C m :
  h !! data = Some C -> isCollection C = true ->
  let flat := flat_of C in
  Forall D flat -> (forall x, D x -> supported x = true) ->
  selection_contract partitionSelect compare flat ->
  let call := (dispatch 3 data (VNumber (1 # 2)) (VBoolean false) h).2 in
  (length flat = S (2 * m) ->
   exists x, call = Ok x /\ kth_smallest compare flat m x)
  /\ (length flat = (2 * S m)%nat ->
      exists a b f, f == 1 # 2
        /\ kth_smallest compare flat m a /\ kth_smallest compare flat (S m) b
        /\ call = combine add multiply a b (VNumber (1 - f)) (VNumber f)).
Proof.
  intros Hv Hc flat Hflat Hsup Hsel call.
  assert (Hcall : call = result_of flat (VNumber (1 # 2)) false).
  { unfold call. rewrite (dispatch_run h data C _ false Hv Hc).
    apply dispatch_probability; lra. }
  split.
  - intros Hlen.
    assert (Hne : flat <> []) by (intros Heq; by rewrite Heq in Hlen).
    assert (Hk : (1 # 2) * (of_nat (length flat) - 1) == of_nat m).
    { rewrite Hlen, of_nat_S, of_nat_double. lra. }
    destruct (rank_of_exact (VNumber (1 # 2)) (1 # 2) (length flat) m eq_refl)
      as (Hrank & Hidx & Hlt); [lra|lra|by apply nonempty_length|done|].
    destruct (exact_result flat _ _ m Hne Hflat Hsup Hsel Hrank Hidx Hlt)
      as (x & Hx & Hkth).
    exists x. by rewrite Hcall.
  - intros Hlen.
    assert (Hne : flat <> []) by (intros Heq; by rewrite Heq in Hlen).
    set (idx := (1 # 2) * (of_nat (length flat) - 1)).
    assert (Hidx : idx == of_nat m + (1 # 2)).
    { unfold idx. rewrite Hlen, of_nat_double, of_nat_S. lra. }
    assert (Hfloor : Qfloor idx = Z.of_nat m).
    { apply Qfloor_unique; fold (of_nat m); lra. }
    assert (Hint : is_integral idx = false).
    { unfold is_integral. apply not_true_iff_false. intros Heq%Qeq_bool_iff.
      rewrite Hfloor in Heq. fold (of_nat m) in Heq. lra. }
    destruct (rank_of_between (VNumber (1 # 2)) (1 # 2) (length flat) eq_refl)
      as (Hrank & Hk & _); [lra|lra|by apply nonempty_length|exact Hint|].
    fold idx in Hrank, Hk. rewrite Hfloor, Nat2Z.id in Hrank, Hk.
    cbn [as_weight] in Hrank.
    destruct (between_result flat _ m _ _ Hne Hflat Hsup Hsel Hrank Hk)
      as (a & b & s & Hres & Hs & Hsorted & Ha & Hb & _).
    exists a, b, (idx - of_nat m).
    split; [lra|]. split; [by exists s|]. split; [by exists s|].
    by rewrite Hcall.
Qed.

End Order.

End Properties.

(** * The engine on exact numbers

    The capability set [Exact] meets the contracts on native numbers; the
    calls below run the embedding on the array [[3, -1, 5, 7]] of the
    documentation. *)

Lemma Exact_le_number x y :
  le Exact.compare (VNumber x) (VNumber y) <-> x <= y.
Proof.
  unfold le. cbn [Exact.compare]. rewrite Qle_alt. split.
  - intros (c & [= <-] & Hc). by destruct (x ?= y).
  - intros Hxy. eexists. split; [done|]. by destruct (x ?= y).
Qed.

Lemma Exact_total_preorder : total_preorder_on Exact.compare is_number.
Proof.
  split.
  - intros a b [x ->] [y ->]. by eexists.
  - intros a b [x ->] [y ->]. rewrite !Exact_le_number.
    destruct (Qlt_le_dec x y); [left|right]; lra.
  - intros a b c [x ->] [y ->] [z ->]. rewrite !Exact_le_number. lra.
Qed.



Lemma sample_flat : flat_of sample = map VNumber [3; -1; 5; 7].
Proof. reflexivity. Qed.

Lemma sample_numbers : Forall is_number (flat_of sample).
Proof. rewrite sample_flat. repeat constructor; by eexists. Qed.

Lemma number_supported x : is_number x -> supported x = true.
Proof. by intros [q ->]. Qed.

Lemma Exact_insert_by x l :
  is_number x -> Forall is_number l -> StronglySorted (le Exact.compare) l ->
  exists s, Exact.insert_by x l = Ok s /\ s ≡ₚ x :: l /\ Forall is_number s
            /\ StronglySorted (le Exact.compare) s.
Proof.
  intros [q ->]. induction l as [|y l IH]; intros Hl Hs.
  - exists [VNumber q]. split; [done|]. split; [done|].
    split; repeat constructor. by eexists.
  - apply Forall_cons in Hl as [[r ->] Hl].
    apply StronglySorted_cons in Hs as [Hy Hs].
    cbn [Exact.insert_by Exact.compare rbind].
    destruct (Z.leb (Exact.sign (q ?= r)) 0) eqn:Hc.
    + exists (VNumber q :: VNumber r :: l). split; [done|]. split; [done|].
      assert (Hqr : le Exact.compare (VNumber q) (VNumber r)).
      { eexists. split; [done|]. by apply Z.leb_le. }
      split; [constructor; [by eexists|]; constructor; [by eexists|done]|].
      constructor; [by constructor|]. constructor; [done|].
      rewrite Forall_forall in Hy, Hl. apply Forall_forall. intros z Hz.
      destruct (Hl z Hz) as [t ->]. specialize (Hy _ Hz).
      apply Exact_le_number. apply Exact_le_number in Hqr, Hy. lra.
    + destruct (IH Hl Hs) as (s & Hins & Hperm & Hnum & Hsorted).
      rewrite Hins. cbn [rbind]. exists (VNumber r :: s).
      split; [done|]. split; [rewrite Hperm; apply Permutation_swap|].
      split; [constructor; [by eexists|done]|].
      constructor; [done|]. rewrite Hperm. constructor; [|done].
      apply Exact_le_number. apply Z.leb_gt in Hc.
      destruct (q ?= r) eqn:Hcmp; try done.
      apply Qgt_alt in Hcmp. lra.
Qed.

Lemma Exact_sort_by l :
  Forall is_number l ->
  exists s, Exact.sort_by l = Ok s /\ s ≡ₚ l /\ Forall is_number s
            /\ StronglySorted (le Exact.compare) s.
Proof.
  induction 1 as [|x l Hx Hl IH].
  - exists []. split; [done|]. split; [done|]. split; constructor.
  - destruct IH as (s & Hsort & Hperm & Hnum & Hsorted).
    destruct (Exact_insert_by x s Hx Hnum Hsorted) as (s' & Hins & Hperm' & Hnum' & Hs').
    exists s'. cbn [Exact.sort_by]. rewrite Hsort. cbn [rbind].
    split; [done|]. split; [by rewrite Hperm', Hperm|done].
Qed.

(** [Exact.partitionSelect] honours the contract of the selection on every
    array of numbers. *)
Lemma Exact_selection l :
  Forall is_number l ->
  selection_contract Exact.partitionSelect Exact.compare l.
Proof.
  intros Hl k rank Hk Hrank. unfold Exact.partitionSelect. rewrite Hk.
  assert ((length l <=? rank)%nat = false) as -> by (apply Nat.leb_gt; lia).
  destruct (Exact_sort_by l Hl) as (s & -> & Hperm & Hnum & Hs).
  destruct (lookup_lt_is_Some_2 s rank) as [v Hv];
    [by rewrite (Permutation_length Hperm)|].
  exists v. cbn [fst snd]. rewrite Hv. split; [done|]. split; [done|].
  split; [done|].
  rewrite <- (take_drop_middle _ _ _ Hv) in Hs.
  apply StronglySorted_app in Hs as (Hlow & _ & (Hhigh & _)%StronglySorted_cons).
  split; [|done].
  apply Forall_forall. intros x Hx. apply (Hlow x v Hx), list_elem_of_here.
Qed.

Lemma sample_selection :
  selection_contract Exact.partitionSelect Exact.compare (flat_of sample).
Proof. apply Exact_selection, sample_numbers. Qed.

Lemma sample_lookup : sample_store !! 0%nat = Some sample.
Proof. reflexivity. Qed.

Lemma sample_nonempty : flat_of sample <> [].
Proof. by rewrite sample_flat. Qed.

(** ** The theorems at work on the sample *)


Lemma exact_rank_quantile_witness :
  exists x,
    (Exact.quantileSeq 3 0 (VNumber (1 # 3)) (VBoolean false) sample_store).2 = Ok x
    /\ kth_smallest Exact.compare (flat_of sample) 1 x.
Proof.
  destruct (exact_rank_quantile Exact.add Exact.multiply Exact.partitionSelect
              Exact.compare Exact.isInteger is_number Exact_total_preorder
              sample_store 0 sample (VNumber (1 # 3)) (1 # 3) 1
              sample_lookup eq_refl sample_nonempty sample_numbers
              number_supported sample_selection eq_refl)
    as (x & _ & Hd & _ & Hk & _).
  - lra.
  - lra.
  - reflexivity.
  - exists x. split; [exact (Hd eq_refl)|exact Hk].
Defined.


Lemma count_form_witness :
  (Exact.quantileSeq 3 0 (VNumber 2) (VBoolean false) sample_store).2
  = rbind (mapR (fun i => (Exact.quantileSeq 3 0 (VNumber (of_nat (S i) / (2 + 1)))
                             (VBoolean false) sample_store).2) (seq 0 2))
      (fun rs => Ok (VArray rs)).
Proof.
  apply (count_form Exact.add Exact.multiply Exact.partitionSelect
           Exact.compare Exact.isInteger sample_store 0 sample 2 2 false
           sample_lookup eq_refl eq_refl); [lra|lra|reflexivity].
Defined.

Lemma caller_collection_never_mutated_witness :
  (Exact.quantileSeq 3 0 (VNumber (1 # 2)) (VBoolean false) sample_store).1 !! 0%nat
  = Some sample
  /\ (Exact._quantileSeq 0 (VNumber (1 # 2)) false sample_store).1
     = <[fresh (dom sample_store) :=
           VArray (copy_after Exact.partitionSelect (flat_of sample) (VNumber (1 # 2)) false)]>
         sample_store.
Proof.
  destruct (caller_collection_never_mutated Exact.add Exact.multiply
              Exact.partitionSelect Exact.compare Exact.isInteger) as [Hkeep Hcopy].
  split.
  - exact (Hkeep 3%nat 0%nat (VNumber (1 # 2)) (VBoolean false) sample_store
             0%nat sample sample_lookup).
  - exact (proj2 (Hcopy 0%nat (VNumber (1 # 2)) false sample_store sample
                    sample_lookup eq_refl)).
Defined.

Lemma error_cases_witness :
  let h := Exact.store_of (VArray []) in
  Exact.quantileSeq 3 0 (VNumber (1 # 2)) (VBoolean false) h
  = (<[fresh (dom h) := VArray []]> h,
     Throw (Error "Cannot calculate quantile of an empty sequence"))
  /\ Exact.quantileSeq 3 0 (VNumber (-1 # 10)) (VBoolean false) h
     = (h, Throw (Error "N/prob must be non-negative"))
  /\ Exact.quantileSeq 3 0 (VArray [VNumber (3 # 2)]) (VBoolean false) h
     = (h, Throw (Error "Probability must be between 0 and 1, inclusive"))
  /\ Exact.quantileSeq 3 0 (VNumber (5 # 2)) (VBoolean false) h
     = (h, Throw (Error "N must be a positive integer")).
Proof.
  intros h.
  destruct (error_cases Exact.add Exact.multiply Exact.partitionSelect
              Exact.compare Exact.isInteger h 0 (VArray []) false
              eq_refl eq_refl eq_refl) as (Hempty & Hrest).
  split; [exact (Hempty eq_refl)|exact Hrest].
Defined.



Lemma invalid_probability_witness :
  ~ is_Ok (Exact.quantileSeq 3 0 (VArray [VNumber (1 # 2); VNumber (3 # 2)])
             (VBoolean false) sample_store).2
  /\ (Exact.quantileSeq 3 0 (VArray [VNumber (1 # 2); VNumber (3 # 2); VNumber 0])
        (VBoolean false) sample_store).2
     = rbind (mapR (fun p => (Exact._quantileSeq 0 p false sample_store).2)
                [VNumber (1 # 2)])
         (fun _ => Throw out_of_range).
Proof.
  destruct (invalid_probability_fails_whole_call Exact.add Exact.multiply
              Exact.partitionSelect Exact.compare Exact.isInteger
              sample_store 0 sample false sample_lookup eq_refl) as [Hfail Hfirst].
  split.
  - apply Hfail. apply Exists_cons_tl, Exists_cons_hd. discriminate.
  - apply (Hfirst [VNumber (1 # 2)] (VNumber (3 # 2)) [VNumber 0] out_of_range).
    + by repeat constructor.
    + reflexivity.
Defined.

(** ** Where the code departs from the specification *)

(** C5 as stated fails. [quantileSeq([], [0.5, 1.5])]: the list holds the
    invalid probability 1.5, and yet the call has flattened the collection
    (the store holds the private copy, the new object [1]) and fails with the
    error of the scalar calculator for the element 0.5, not with an error of
    the validation; on [[3, -1, 5, 7]] the call fails with the range error
    for 1.5 after the private copy for 0.5 has been made. *)
Lemma list_validation_is_interleaved :
  let h := Exact.store_of (VArray []) in
  let ps := [VNumber (1 # 2); VNumber (3 # 2)] in
  Exists (fun p => check_prob p <> Ok tt) ps
  /\ Exact.quantileSeq 3 0 (VArray ps) (VBoolean false) h
     = (<[1%nat := VArray []]> h,
        Throw (Error "Cannot calculate quantile of an empty sequence"))
  /\ (let run := Exact.quantileSeq 3 0 (VArray ps) (VBoolean false) sample_store in
      run.2 = Throw out_of_range /\ is_Some (run.1 !! 1%nat) /\ run.1 <> sample_store)
  /\ ~ validation_precedes_computation Exact.quantileSeq.
Proof.
  intros h ps.
  assert (Hps : Exists (fun p => check_prob p <> Ok tt) ps)
    by (apply Exists_cons_tl, Exists_cons_hd; discriminate).
  assert (Hrun : Exact.quantileSeq 3 0 (VArray ps) (VBoolean false) h
                 = (<[1%nat := VArray []]> h,
                    Throw (Error "Cannot calculate quantile of an empty sequence")))
    by (vm_compute; reflexivity).
  split; [done|]. split; [done|]. split.
  { split; [vm_compute; reflexivity|]. split; [vm_compute; by eexists|].
    intros Heq. assert (Hnone : sample_store !! 1%nat = None) by reflexivity.
    rewrite <- Heq in Hnone. vm_compute in Hnone. discriminate Hnone. }
  intros Hfirst.
  destruct (Hfirst h 0%nat (VArray []) ps false eq_refl eq_refl Hps) as (e & He & Hrun').
  rewrite Hrun in Hrun'. injection Hrun' as _ <-.
  destruct He as [He|He]; discriminate He.
Qed.

(** C3 as stated fails beyond the length of an array.  [N = 2^32] is a
    native integer above 1, and [quantileSeq([3, -1, 5, 7], N)] returns no
    sequence: [new Array(N)] of line 98 throws a RangeError. *)
Lemma count_beyond_array_length :
  let N := 4294967296 in
  1 < N /\ is_integral N = true /\ Exact.isInteger (VNumber N) = Ok true
  /\ Exact.quantileSeq 3 0 (VNumber N) (VBoolean false) sample_store
     = (sample_store, Throw (RangeError "Invalid array length"))
  /\ ~ is_Ok (Exact.quantileSeq 3 0 (VNumber N) (VBoolean false) sample_store).2.
Proof.
  intros N.
  assert (Hrun : Exact.quantileSeq 3 0 (VNumber N) (VBoolean false) sample_store
                 = (sample_store, Throw (RangeError "Invalid array length")))
    by (vm_compute; reflexivity).
  split; [reflexivity|]. split; [reflexivity|]. split; [reflexivity|].
  split; [done|]. rewrite Hrun. by intros [r Hr].
Qed.

(** C4. The list form and the single form disagree on a BigNumber
    probability: with the collection [[3, -1, 5, 7]] of native numbers,
    [quantileSeq(S, [BigNumber(0)])] returns [[-1]], the native number as the
    scalar calculator returned it (line 161), while
    [quantileSeq(S, BigNumber(0))] returns [BigNumber(-1)]: line 117 wraps the
    result in [new BigNumber(...)], as line 136 does for each element of the
    count form. *)
Lemma list_form_leaves_bignumber_result_unwrapped :
  (Exact.quantileSeq 3 0 (VArray [VBigNumber (mkBig 7 0)]) (VBoolean false)
     sample_store).2
  = Ok (VArray [VNumber (-1)])
  /\ (Exact.quantileSeq 3 0 (VBigNumber (mkBig 7 0)) (VBoolean false) sample_store).2
     = Ok (VBigNumber (mkBig 7 (-1))).
Proof. split; vm_compute; reflexivity. Qed.

(** * The ranks asked of the selection *)

Section Ranks.

Variable add : value -> value -> result value.
Variable multiply : value -> value -> result value.
Variable compare : value -> value -> result Z.
Variable isInteger : value -> result bool.
Variable select : list value -> Q -> list value * result value.
Variable select' : list value -> Q -> list value * result value.

(** On a probability, the scalar calculator asks the selection for ranks of
    the array only. *)
Lemma quantile_agree flat prob sorted :
  agree_in_range select select' flat -> check_prob prob = Ok tt ->
  quantile_of add multiply select compare flat prob sorted
  = quantile_of add multiply select' compare flat prob sorted.
Proof.
  intros Hag (p & Hp & H0 & H1)%check_prob_Ok. unfold quantile_of.
  destruct (length flat =? 0)%nat eqn:Hlen; [done|]. apply Nat.eqb_neq in Hlen.
  assert (Hpos : (0 < length flat)%nat) by lia.
  destruct (index_bounds p (length flat) H0 H1 Hpos) as [Hi0 _].
  destruct (is_integral (p * (of_nat (length flat) - 1))) eqn:Hint.
  - pose proof (integral_index _ Hi0 Hint) as Hk.
    destruct (rank_of_exact prob p (length flat) _ Hp H0 H1 Hpos Hk)
      as (Hrank & Hidx & Hlt).
    rewrite Hrank. unfold exact_rank_of, consulted.
    destruct sorted; [done|]. by rewrite (Hag _ _ Hidx Hlt).
  - destruct (rank_of_between prob p (length flat) Hp H0 H1 Hpos Hint)
      as (Hrank & Hk & _).
    rewrite Hrank. unfold endpoints_of.
    destruct sorted; [done|].
    rewrite (Hag _ (S (Z.to_nat (Qfloor (p * (of_nat (length flat) - 1)))))); [done| |done].
    apply to_index_succ. by apply to_index_of.
Qed.

(** X17. The selection is only ever asked for ranks of the array: whatever
    the probability argument (a probability, a count or a list, native or
    BigNumber) and the sorted flag, the outcome of a call on a collection
    does not depend on what [partitionSelect] does outside
    [0 <= rank < length] of the flattened collection; two selections that
    agree there give the same result or the same exception. *)
Theorem selection_ranks_in_range (h : gmap nat value) data C probOrN sorted :
  h !! data = Some C -> isCollection C = true ->
  agree_in_range select select' (flat_of C) ->
  (quantileSeq add multiply select compare isInteger 3 data probOrN (VBoolean sorted) h).2
  = (quantileSeq add multiply select' compare isInteger 3 data probOrN (VBoolean sorted) h).2.
Proof.
  intros Hv Hc Hag.
  rewrite (dispatch_run add multiply select compare isInteger h data C _ sorted Hv Hc).
  rewrite (dispatch_run add multiply select' compare isInteger h data C _ sorted Hv Hc).
  pose proof (fun prob => quantile_agree (flat_of C) prob sorted Hag) as Hq.
  destruct probOrN as [p|b| | | | |ps|ps]; cbn [dispatch_of]; try done.
  - destruct (Qlt_bool p 0) eqn:H0; [done|]. apply Qlt_bool_false in H0.
    destruct (Qle_bool p 1) eqn:H1.
    { apply Qle_bool_iff in H1. apply Hq, check_prob_Ok. by exists p. }
    destruct (isInteger (VNumber p)) as [[]|]; cbn [rbind negb]; try done.
    destruct (new_Array p) as [n|] eqn:Hn; cbn [rbind]; [|done].
    apply new_Array_Ok, to_index_Some in Hn.
    f_equal. apply mapR_ext, Forall_seq. intros i Hi. cbv beta.
    destruct (step_is_probability p n i Hn) as [? ?]; [lia|].
    apply Hq, check_prob_Ok. by eexists.
  - destruct (big_isNegative b) eqn:H0; [done|]. apply Qlt_bool_false in H0.
    unfold wrapped_quantile.
    destruct (big_lte b _) eqn:H1.
    { apply Qle_bool_iff in H1. cbn [big_val] in H1.
      rewrite Hq; [done|]. apply check_prob_Ok. by exists (big_val b). }
    destruct (big_isInteger b); cbn [negb]; [|done].
    destruct (Qlt_bool _ _); [done|].
    destruct (new_Array _) as [n|] eqn:Hn; cbn [rbind]; [|done].
    apply new_Array_Ok, to_index_Some in Hn. unfold big_toNumber in Hn.
    f_equal. apply mapR_ext, Forall_seq. intros i Hi. cbv beta.
    destruct (step_is_probability (big_val b) n i Hn) as [? ?]; [lia|].
    rewrite Hq; [done|]. apply check_prob_Ok.
    exists (of_nat (S i) / (big_val b + 1)). by split.
  - f_equal. apply mapR_ext, Forall_true. intros c. unfold checked_quantile.
    destruct (check_prob c) as [[]|] eqn:Hcheck; [|done]. by apply Hq.
  - f_equal. apply mapR_ext, Forall_true. intros c. unfold checked_quantile.
    destruct (check_prob c) as [[]|] eqn:Hcheck; [|done]. by apply Hq.
Qed.

End Ranks.

(** * The further properties at work on exact numbers *)



Lemma lenient_select_agrees l : agree_in_range Exact.partitionSelect lenient_select l.
Proof.
  intros k rank Hk Hlt. unfold lenient_select. rewrite Hk.
  by assert ((length l <=? rank)%nat = false) as -> by (apply Nat.leb_gt; lia).
Qed.

Lemma list_form_of_native_probabilities_witness :
  (Exact.quantileSeq 3 0 (VArray (map VNumber [1 # 3; 1 # 2])) (VBoolean false)
     sample_store).2
  = rbind (mapR (fun p => (Exact.quantileSeq 3 0 (VNumber p) (VBoolean false)
                             sample_store).2) [1 # 3; 1 # 2])
      (fun rs => Ok (VArray rs)).
Proof.
  apply (list_form_of_native_probabilities Exact.add Exact.multiply
           Exact.partitionSelect Exact.compare Exact.isInteger
           sample_store 0 sample [1 # 3; 1 # 2] false sample_lookup eq_refl).
  repeat constructor; lra.
Defined.

Lemma list_form_does_not_wrap_witness :
  (Exact.quantileSeq 3 0 (VArray [VBigNumber (mkBig 7 1)]) (VBoolean false) sample_store).2
  = Ok (VArray [VNumber 7])
  /\ (Exact.quantileSeq 3 0 (VBigNumber (mkBig 7 1)) (VBoolean false) sample_store).2
     = Ok (VBigNumber (mkBig 7 7)).
Proof.
  destruct (list_form_does_not_wrap Exact.add Exact.multiply Exact.partitionSelect
              Exact.compare Exact.isInteger sample_store 0 sample (mkBig 7 1) false
              sample_lookup eq_refl)
    as (_ & _ & _ & Hkinds); [cbn; lra|cbn; lra|].
  exact (Hkinds 7 eq_refl).
Defined.

Lemma count_form_is_list_form_witness :
  (Exact.quantileSeq 3 0 (VNumber 2) (VBoolean false) sample_store).2
  = (Exact.quantileSeq 3 0 (VArray (steps 2 2)) (VBoolean false) sample_store).2.
Proof.
  apply (count_form_is_list_form Exact.add Exact.multiply Exact.partitionSelect
           Exact.compare Exact.isInteger sample_store 0 sample 2 2 false
           sample_lookup eq_refl eq_refl); [lra|lra|reflexivity].
Defined.

Lemma bignumber_count_form_witness :
  let step := fun i => VBigNumber (big_div (mkBig 7 (of_nat (S i))) (mkBig 7 (2 + 1))) in
  (Exact.quantileSeq 3 0 (VBigNumber (mkBig 7 2)) (VBoolean false) sample_store).2
  = rbind (mapR (fun i => (Exact.quantileSeq 3 0 (step i) (VBoolean false) sample_store).2)
             (seq 0 2))
      (fun rs => Ok (VArray rs)).
Proof.
  intros step.
  apply (bignumber_count_form Exact.add Exact.multiply Exact.partitionSelect
           Exact.compare Exact.isInteger sample_store 0 sample (mkBig 7 2) 2 false
           sample_lookup eq_refl eq_refl); cbn; lra.
Defined.

(** [[[], []]] flattens to the empty sequence. *)
Lemma empty_collection_witness :
  let h := Exact.store_of (VArray [VArray []; VArray []]) in
  (Exact.quantileSeq 3 0 (VNumber 1) (VBoolean false) h).2 = Throw empty_sequence
  /\ (Exact.quantileSeq 3 0 (VNumber 2) (VBoolean false) h).2 = Throw empty_sequence
  /\ (Exact.quantileSeq 3 0 (VArray [VNumber 0; VNumber 2]) (VBoolean false) h).2
     = Throw empty_sequence
  /\ Exact.quantileSeq 3 0 (VArray []) (VBoolean false) h = (h, Ok (VArray [])).
Proof.
  intros h.
  destruct (empty_collection Exact.add Exact.multiply Exact.partitionSelect
              Exact.compare Exact.isInteger h 0 (VArray [VArray []; VArray []]) false
              eq_refl eq_refl)
    as (Hempty & Hnone).
  destruct (Hempty eq_refl) as (Hp & _ & Hcount & _ & Hlist).
  split; [apply Hp; lra|].
  split; [apply (Hcount 2 2%nat); [reflexivity|lra|lra|reflexivity]|].
  split; [by apply Hlist|exact Hnone].
Defined.

Lemma domain_errors_precede_computation_witness :
  let h := Exact.store_of (VArray [VString "a"]) in
  Exact.quantileSeq 3 0 (VNumber (-1)) (VBoolean false) h
  = (h, Throw (Error "N/prob must be non-negative"))
  /\ Exact.quantileSeq 3 0 (VBigNumber (mkBig 7 (7 # 2))) (VBoolean true) h
     = (h, Throw (Error "N must be a positive integer")).
Proof.
  intros h.
  destruct (domain_errors_precede_computation Exact.add Exact.multiply
              Exact.partitionSelect Exact.compare Exact.isInteger
              h 0 (VArray [VString "a"]) false eq_refl eq_refl)
    as (Hneg & _).
  destruct (domain_errors_precede_computation Exact.add Exact.multiply
              Exact.partitionSelect Exact.compare Exact.isInteger
              h 0 (VArray [VString "a"]) true eq_refl eq_refl)
    as (_ & _ & _ & Hbig).
  split; [apply Hneg; lra|].
  apply (Hbig (mkBig 7 (7 # 2))); [cbn; lra|reflexivity].
Defined.

Lemma native_count_limit_witness :
  Exact.quantileSeq 3 0 (VNumber 10000000000) (VBoolean false) sample_store
  = (sample_store, Throw (RangeError "Invalid array length")).
Proof.
  apply (native_count_limit Exact.add Exact.multiply Exact.partitionSelect
           Exact.compare Exact.isInteger sample_store 0 sample 10000000000 false
           sample_lookup eq_refl); [lra|reflexivity].
Defined.

(** The minimum of [[3 cm, 1 cm]] is found for the probability
    [BigNumber(0)], and lost in the wrapping. *)
Lemma bignumber_probability_refuses_units_witness :
  let h := Exact.store_of (VArray [VUnit 3 "cm"; VUnit 1 "cm"]) in
  (Exact._quantileSeq 0 (VBigNumber (mkBig 7 0)) false h).2 = Ok (VUnit 1 "cm")
  /\ exists msg,
       (Exact.quantileSeq 3 0 (VBigNumber (mkBig 7 0)) (VBoolean false) h).2
       = Throw (Error msg).
Proof.
  intros h. split; [reflexivity|].
  apply (bignumber_probability_refuses_units Exact.add Exact.multiply
           Exact.partitionSelect Exact.compare Exact.isInteger
           h 0 (VArray [VUnit 3 "cm"; VUnit 1 "cm"]) (mkBig 7 0) false 1 "cm"
           eq_refl eq_refl); [cbn; lra|cbn; lra|reflexivity].
Defined.


Lemma single_element_collection_witness :
  (Exact.quantileSeq 3 0 (VNumber (7 # 10)) (VBoolean false)
     (Exact.store_of (VArray [VArray [VNumber 42]]))).2 = Ok (VNumber 42).
Proof.
  destruct (single_element_collection Exact.add Exact.multiply Exact.partitionSelect
              Exact.compare Exact.isInteger
              (Exact.store_of (VArray [VArray [VNumber 42]])) 0
              (VArray [VArray [VNumber 42]]) (VNumber 42) (VNumber (7 # 10)) (7 # 10) false
              eq_refl eq_refl eq_refl eq_refl)
    as [_ Hd].
  - intros _. apply Exact_selection. repeat constructor. by eexists.
  - reflexivity.
  - lra.
  - lra.
  - exact (Hd eq_refl).
Defined.

Lemma shape_is_irrelevant_witness :
  (Exact.quantileSeq 3 0 (VNumber 2) (VBoolean false)
     (Exact.store_of (VMatrix [Exact.numbers [3; -1]; Exact.numbers [5; 7]]))).2
  = (Exact.quantileSeq 3 0 (VNumber 2) (VBoolean false) sample_store).2.
Proof.
  exact (shape_is_irrelevant Exact.add Exact.multiply Exact.partitionSelect
           Exact.compare Exact.isInteger
           (Exact.store_of (VMatrix [Exact.numbers [3; -1]; Exact.numbers [5; 7]])) 0
           (VMatrix [Exact.numbers [3; -1]; Exact.numbers [5; 7]])
           sample_store 0 sample (VNumber 2) false
           eq_refl eq_refl sample_lookup eq_refl eq_refl).
Defined.

Lemma calls_do_not_interfere_witness :
  let h1 := (Exact.quantileSeq 3 0 (VNumber 2) (VBoolean false) sample_store).1 in
  (Exact.quantileSeq 3 0 (VNumber (1 # 2)) (VBoolean true) h1).2
  = (Exact.quantileSeq 3 0 (VNumber (1 # 2)) (VBoolean true) sample_store).2.
Proof.
  exact (calls_do_not_interfere Exact.add Exact.multiply Exact.partitionSelect
           Exact.compare Exact.isInteger sample_store 0 sample
           3 (VNumber 2) (VBoolean false) (VNumber (1 # 2)) true
           sample_lookup eq_refl).
Defined.




Lemma half_quantile_is_median_witness :
  exists a b f, f == 1 # 2
    /\ kth_smallest Exact.compare (flat_of sample) 1 a
    /\ kth_smallest Exact.compare (flat_of sample) 2 b
    /\ (Exact.quantileSeq 3 0 (VNumber (1 # 2)) (VBoolean false) sample_store).2
       = combine Exact.add Exact.multiply a b (VNumber (1 - f)) (VNumber f).
Proof.
  destruct (half_quantile_is_median Exact.add Exact.multiply Exact.partitionSelect
              Exact.compare Exact.isInteger is_number Exact_total_preorder
              sample_store 0 sample 1 sample_lookup eq_refl sample_numbers
              number_supported sample_selection) as [_ Heven].
  exact (Heven eq_refl).
Defined.

(** The two selections differ off the array, and the calls do not see it. *)
Lemma selection_ranks_in_range_witness :
  (Exact.partitionSelect (flat_of sample) 4).2 <> (lenient_select (flat_of sample) 4).2
  /\ (Exact.quantileSeq 3 0 (VNumber 3) (VBoolean false) sample_store).2
     = (quantileSeq Exact.add Exact.multiply lenient_select Exact.compare Exact.isInteger
          3 0 (VNumber 3) (VBoolean false) sample_store).2.
Proof.
  split; [discriminate|].
  apply (selection_ranks_in_range Exact.add Exact.multiply Exact.compare Exact.isInteger
           Exact.partitionSelect lenient_select sample_store 0 sample (VNumber 3) false
           sample_lookup eq_refl).
  apply lenient_select_agrees.
Defined.
